(** * SnakeGame: a shallow embedding of [streamlit_snake_app.py]

    The game logic of the repository lives in the class [SnakeGame]
    (methods [reset_game], [generate_food], [get_hand_direction], [update])
    and in [VideoProcessor.recv], which resolves the pointer into a direction
    and then calls [update] once per video frame.

    Modelling choices:
    - cells and directions are pairs of Python integers, here [Z * Z];
    - [self.snake] is a Python list, here [list pos], head first;
    - wall-clock readings of [time.time()] are inputs of the operations and
      are taken in [Q] (exact arithmetic instead of binary floating point);
    - [random.randint] reads a stream of raw integers [nat -> Z]; every value
      of the inclusive range can be drawn, nothing else can;
    - the [while True] loop of [generate_food] runs on fuel; running out of
      fuel is the outcome [Spin] (the loop is still going), never a value;
    - indexing an empty list is the outcome [Raise] (Python's IndexError). *)

From Stdlib Require Import ZArith QArith Lqa List Bool Lia.
Import ListNotations.

Local Open Scope Z_scope.

(** ** Outcomes of a call *)

Inductive result (A : Type) : Type :=
| Ok (a : A)
| Raise
| Spin.

Arguments Ok {A} a.
Arguments Raise {A}.
Arguments Spin {A}.

Definition bind {A B : Type} (r : result A) (k : A -> result B) : result B :=
  match r with
  | Ok a => k a
  | Raise => Raise
  | Spin => Spin
  end.

Notation "x <- r ;; k" := (bind r (fun x => k))
  (at level 61, r at next level, right associativity).

(** ** Cells *)

Definition pos : Type := (Z * Z)%type.

Definition pos_eqb (a b : pos) : bool :=
  (fst a =? fst b) && (snd a =? snd b).

(** Python's [p in l] on a list of tuples. *)
Fixpoint mem (p : pos) (l : list pos) : bool :=
  match l with
  | [] => false
  | q :: l' => pos_eqb p q || mem p l'
  end.

(** Strict comparison of two clock readings. *)
Definition Qltb (a b : Q) : bool := negb (Qle_bool b a).

(** ** The game object *)

Record SnakeGame : Type := mkGame {
  snake : list pos;
  direction : pos;
  food : pos;
  score : Z;
  game_over : bool;
  last_update : Q;
  last_direction_change : Q
}.

(** Constants set once in [__init__]. *)
Definition width : Z := 640.
Definition height : Z := 480.
Definition grid_size : Z := 20.
Definition game_speed : Q := 12 # 100.
Definition direction_cooldown : Q := 15 # 100.
Definition dead_zone : Z := 40.

(** [random.randint lo hi], fed with one raw integer of the stream. *)
Definition randint (lo hi raw : Z) : Z := lo + raw mod (hi - lo + 1).

(** [generate_food]: rejection sampling; iteration [k] of the loop reads the
    raw integers [2k] and [2k+1] of the stream, counted from [i]. *)
Fixpoint generate_food (fuel : nat) (rnd : nat -> Z) (i : nat)
    (sn : list pos) : result pos :=
  match fuel with
  | O => Spin
  | S fuel' =>
      let food_x := randint 0 ((width - grid_size) / grid_size) (rnd i) * grid_size in
      let food_y :=
        randint 0 ((height - grid_size) / grid_size) (rnd (S i)) * grid_size in
      let food_pos := (food_x, food_y) in
      if negb (mem food_pos sn) then Ok food_pos
      else generate_food fuel' rnd (S (S i)) sn
  end.

(** [reset_game], called at clock reading [now]. *)
Definition reset_game (fuel : nat) (rnd : nat -> Z) (now : Q)
    (g : SnakeGame) : result SnakeGame :=
  let snake' := [(width / 2, height / 2)] in
  let direction' := (grid_size, 0) in
  food' <- generate_food fuel rnd 0 snake' ;;
  Ok {| snake := snake';
        direction := direction';
        food := food';
        score := 0;
        game_over := false;
        last_update := now;
        last_direction_change := last_direction_change g |}.

(** [__init__]: [reset_game] runs first (clock reading [t0]), then the two
    time stamps are set from later readings [t1] and [t2]. *)
Definition init (fuel : nat) (rnd : nat -> Z) (t0 t1 t2 : Q) : result SnakeGame :=
  let blank := mkGame [] (0, 0) (0, 0) 0 false 0%Q 0%Q in
  g <- reset_game fuel rnd t0 blank ;;
  Ok {| snake := snake g;
        direction := direction g;
        food := food g;
        score := score g;
        game_over := game_over g;
        last_update := t2;
        last_direction_change := t1 |}.

(** The anti-reversal test at the end of [get_hand_direction]. *)
Definition no_reverse (g : SnakeGame) (new_direction : pos) : pos :=
  if pos_eqb (fst new_direction * -1, snd new_direction * -1) (direction g)
  then direction g
  else new_direction.

(** [get_hand_direction]; [finger_x], [finger_y] are the fingertip in frame
    pixels, after the conversion to [int]. *)
Definition get_hand_direction (g : SnakeGame) (finger_x finger_y : Z) : result pos :=
  match snake g with
  | [] => Raise
  | (head_x, head_y) :: _ =>
      let dx := finger_x - head_x in
      let dy := finger_y - head_y in
      if (Z.abs dx >? Z.abs dy) && (Z.abs dx >? dead_zone) then
        Ok (no_reverse g (if dx >? 0 then (grid_size, 0) else (- grid_size, 0)))
      else if (Z.abs dy >? Z.abs dx) && (Z.abs dy >? dead_zone) then
        Ok (no_reverse g (if dy >? 0 then (0, grid_size) else (0, - grid_size)))
      else Ok (direction g)
  end.

(** The cell the head is about to enter. *)
Definition new_head_of (g : SnakeGame) (head : pos) : pos :=
  (fst head + fst (direction g), snd head + snd (direction g)).

(** The collision test of [update]; [rest] is [self.snake[1:]]. *)
Definition collides (new_head : pos) (rest : list pos) : bool :=
  (fst new_head <? 0) || (fst new_head >=? width) ||
  (snd new_head <? 0) || (snd new_head >=? height) ||
  mem new_head rest.

Definition set_last_update (now : Q) (g : SnakeGame) : SnakeGame :=
  mkGame (snake g) (direction g) (food g) (score g) (game_over g)
         now (last_direction_change g).

Definition set_game_over (g : SnakeGame) : SnakeGame :=
  mkGame (snake g) (direction g) (food g) (score g) true
         (last_update g) (last_direction_change g).

(** Whether a call of [update] at [now] gets past its two early returns. *)
Definition due (now : Q) (g : SnakeGame) : bool :=
  negb (game_over g) && negb (Qltb (now - last_update g) game_speed).

(** The body of [update] after the two early returns. *)
Definition advance (fuel : nat) (rnd : nat -> Z) (now : Q)
    (g : SnakeGame) : result SnakeGame :=
  let g1 := set_last_update now g in
  match snake g1 with
  | [] => Raise
  | head :: rest =>
      let new_head := new_head_of g1 head in
      if collides new_head rest then Ok (set_game_over g1)
      else
        let snake1 := new_head :: snake g1 in
        if pos_eqb new_head (food g1) then
          food' <- generate_food fuel rnd 0 snake1 ;;
          Ok (mkGame snake1 (direction g1) food' (score g1 + 10)
                     (game_over g1) (last_update g1) (last_direction_change g1))
        else
          Ok (mkGame (removelast snake1) (direction g1) (food g1) (score g1)
                     (game_over g1) (last_update g1) (last_direction_change g1))
  end.

(** [update], called at clock reading [now]. *)
Definition update (fuel : nat) (rnd : nat -> Z) (now : Q)
    (g : SnakeGame) : result SnakeGame :=
  if game_over g then Ok g
  else if Qltb (now - last_update g) game_speed then Ok g
  else advance fuel rnd now g.

(** ** The per-frame callback *)

(** One detected hand: the clock reading taken in the loop body and the
    fingertip in frame pixels. *)
Record hand : Type := mkHand {
  hand_time : Q;
  finger_x : Z;
  finger_y : Z
}.

(** The loop body of [recv] for one hand. *)
Definition steer (h : hand) (g : SnakeGame) : result SnakeGame :=
  if Qltb direction_cooldown (hand_time h - last_direction_change g) then
    new_direction <- get_hand_direction g (finger_x h) (finger_y h) ;;
    if negb (pos_eqb new_direction (direction g)) then
      Ok (mkGame (snake g) new_direction (food g) (score g) (game_over g)
                 (last_update g) (hand_time h))
    else Ok g
  else Ok g.

Fixpoint steer_all (hs : list hand) (g : SnakeGame) : result SnakeGame :=
  match hs with
  | [] => Ok g
  | h :: hs' => g' <- steer h g ;; steer_all hs' g'
  end.

(** One video frame: the detected hands and the clock reading of the
    [update] call that ends the callback. *)
Record frame : Type := mkFrame {
  hands : list hand;
  frame_time : Q
}.

(** The direction part of [recv]: the guard and the loop over the hands. *)
Definition recv_steer (f : frame) (g : SnakeGame) : result SnakeGame :=
  if negb (game_over g) then steer_all (hands f) g else Ok g.

(** [VideoProcessor.recv], drawing left out. *)
Definition recv (fuel : nat) (rnd : nat -> Z) (f : frame)
    (g : SnakeGame) : result SnakeGame :=
  g1 <- recv_steer f g ;;
  update fuel rnd (frame_time f) g1.

(** The direction a frame's [update] call moves the head with, if that call
    gets past its early returns. *)
Definition applied (f : frame) (g : SnakeGame) : result (option pos) :=
  g1 <- recv_steer f g ;;
  Ok (if due (frame_time f) g1 then Some (direction g1) else None).

(** A run of the callback over a sequence of frames, each with the raw
    integers its food placement would read; the second component is the
    list of directions applied by the ticks that acted, oldest first. *)
Fixpoint run (fuel : nat) (fs : list ((nat -> Z) * frame)) (g : SnakeGame)
    : result (SnakeGame * list pos) :=
  match fs with
  | [] => Ok (g, [])
  | (rnd, f) :: fs' =>
      a <- applied f g ;;
      g' <- recv fuel rnd f g ;;
      r <- run fuel fs' g' ;;
      Ok (fst r, match a with Some d => d :: snd r | None => snd r end)
  end.

(** Repeated calls of [update] at the clock readings [ts]. *)
Fixpoint updates (fuel : nat) (rnd : nat -> Z) (ts : list Q)
    (g : SnakeGame) : result SnakeGame :=
  match ts with
  | [] => Ok g
  | t :: ts' => g' <- update fuel rnd t g ;; updates fuel rnd ts' g'
  end.

(** Repeated calls of the frame callback. *)
Fixpoint recvs (fuel : nat) (rnd : nat -> Z) (fs : list frame)
    (g : SnakeGame) : result SnakeGame :=
  match fs with
  | [] => Ok g
  | f :: fs' => g' <- recv fuel rnd f g ;; recvs fuel rnd fs' g'
  end.

(** ** Predicates used in the statements *)

(** A cell of the board: inside [[0,W) x [0,H)] and aligned to the grid. *)
Definition in_grid (p : pos) : Prop :=
  0 <= fst p < width /\ 0 <= snd p < height /\
  fst p mod grid_size = 0 /\ snd p mod grid_size = 0.

Definition in_gridb (p : pos) : bool :=
  (0 <=? fst p) && (fst p <? width) && (0 <=? snd p) && (snd p <? height) &&
  (fst p mod grid_size =? 0) && (snd p mod grid_size =? 0).

(** The four headings the code ever assigns to [self.direction]. *)
Definition cardinal (d : pos) : Prop :=
  d = (grid_size, 0) \/ d = (- grid_size, 0) \/
  d = (0, grid_size) \/ d = (0, - grid_size).

Definition negate (d : pos) : pos := (- fst d, - snd d).

(** The cell that iteration [k] of the food loop draws. *)
Definition draw (rnd : nat -> Z) (k : nat) : pos :=
  (randint 0 ((width - grid_size) / grid_size) (rnd (2 * k)%nat) * grid_size,
   randint 0 ((height - grid_size) / grid_size) (rnd (S (2 * k))) * grid_size).

(** The random source draws, sooner or later, a cell off the snake. *)
Definition eventually_free (rnd : nat -> Z) (sn : list pos) : Prop :=
  exists k : nat, mem (draw rnd k) sn = false.

(** States the program can be in: built by [__init__], restarted by the
    button, advanced by the frame callback or by a bare call of [update]. *)
Inductive reachable : SnakeGame -> Prop :=
| reach_init fuel rnd t0 t1 t2 g :
    init fuel rnd t0 t1 t2 = Ok g -> reachable g
| reach_reset fuel rnd now g g' :
    reachable g -> reset_game fuel rnd now g = Ok g' -> reachable g'
| reach_recv fuel rnd f g g' :
    reachable g -> recv fuel rnd f g = Ok g' -> reachable g'
| reach_update fuel rnd now g g' :
    reachable g -> update fuel rnd now g = Ok g' -> reachable g'.

(** The representation invariant of the game object. *)
Record invariant (g : SnakeGame) : Prop := mkInv {
  inv_nonempty : snake g <> [];
  inv_grid : Forall in_grid (snake g);
  inv_nodup : NoDup (snake g);
  inv_dir : cardinal (direction g);
  inv_food_grid : in_grid (food g);
  inv_food_free : ~ In (food g) (snake g);
  inv_score : score g = 10 * (Z.of_nat (length (snake g)) - 1)
}.

(** ** The step relation and the concrete games of the examples *)

(** What a tick that acts does to the game: it ends the game on a collision,
    or moves the head one cell and grows on food, or moves the head one cell
    and drops the tail. *)
Inductive transition (g g' : SnakeGame) : Prop :=
| tr_crash (head : pos) (rest : list pos) :
    snake g = head :: rest ->
    collides (new_head_of g head) rest = true ->
    snake g' = snake g -> food g' = food g -> score g' = score g ->
    game_over g' = true ->
    transition g g'
| tr_eat (head : pos) (rest : list pos) :
    snake g = head :: rest ->
    collides (new_head_of g head) rest = false ->
    new_head_of g head = food g ->
    snake g' = new_head_of g head :: snake g ->
    in_grid (food g') -> ~ In (food g') (snake g') ->
    score g' = score g + 10 ->
    game_over g' = game_over g ->
    transition g g'
| tr_move (head : pos) (rest : list pos) :
    snake g = head :: rest ->
    collides (new_head_of g head) rest = false ->
    new_head_of g head <> food g ->
    snake g' = removelast (new_head_of g head :: snake g) ->
    food g' = food g -> score g' = score g ->
    game_over g' = game_over g ->
    transition g g'.

(** A random source that always draws the cell (100, 100). *)
Definition rnd_100 : nat -> Z := fun _ => 5.

(** The game right after [__init__] at clock reading 0, food at (100, 100). *)
Definition start : SnakeGame :=
  mkGame [(320, 240)] (20, 0) (100, 100) 0 false 0%Q 0%Q.

(** The wall-collision scenario: head at (0, 240) heading left. *)
Definition at_left_wall : SnakeGame :=
  mkGame [(0, 240)] (-20, 0) (100, 100) 0 false 0%Q 0%Q.

Definition crashed : SnakeGame :=
  mkGame [(0, 240)] (-20, 0) (100, 100) 0 true 1%Q 0%Q.

(** A game that ended with a direction change at 9.95 s. *)
Definition previous_game : SnakeGame :=
  mkGame [(0, 240)] (-20, 0) (100, 100) 0 true (996 # 100) (995 # 100).

(** The end-to-end scenario of the specification, last step: head next to
    the food at (100, 100), one tick. *)
Definition before_food : SnakeGame :=
  mkGame [(120, 100)] (-20, 0) (100, 100) 0 false 0%Q 0%Q.

(** Raw integers that draw (100, 100) and then (200, 300). *)
Definition rnd_eat : nat -> Z :=
  fun i => nth i [5; 5; 10; 15] 0.

(** Raw integers that draw (340, 240), (360, 240), (380, 240), (0, 0). *)
Definition rnd_loop : nat -> Z :=
  fun i => nth i [17; 12; 18; 12; 19; 12; 0; 0] 0.

(** The game right after [__init__] with that source: food at (340, 240). *)
Definition loop_start : SnakeGame :=
  mkGame [(320, 240)] (20, 0) (340, 240) 0 false 0%Q 0%Q.

(** Three ticks eat three cells to the right; then the pointer goes below,
    left of and above the head, with a tick after each of the first two
    turns. *)
Definition loop_frames : list ((nat -> Z) * frame) :=
  [ (rnd_loop, mkFrame [] 1);
    (rnd_loop, mkFrame [] 2);
    (rnd_loop, mkFrame [] 3);
    (rnd_loop, mkFrame [mkHand (305 # 100) 380 400] (305 # 100));
    (rnd_loop, mkFrame [] (312 # 100));
    (rnd_loop, mkFrame [mkHand (321 # 100) 100 260] (321 # 100));
    (rnd_loop, mkFrame [] (330 # 100));
    (rnd_loop, mkFrame [mkHand (337 # 100) 360 0] (337 # 100)) ].

(** Four segments around a 2 x 2 block, heading up into the tail cell
    (360, 240); the food is far away at (0, 0). *)
Definition loop4 : SnakeGame :=
  mkGame [(360, 260); (380, 260); (380, 240); (360, 240)] (0, -20) (0, 0) 30
         false (330 # 100) (337 # 100).

Definition column_indices : list Z := map Z.of_nat (seq 0 32).

(** Row [j] of the board, left to right on even rows and right to left on
    odd ones, so that the rows chain into one snake. *)
Definition board_row (j : nat) : list pos :=
  map (fun i : Z => (i * grid_size, Z.of_nat j * grid_size))
      (if Nat.even j then column_indices else rev column_indices).

(** A snake that covers all 32 x 24 cells of the board. *)
Definition full_board : list pos := flat_map board_row (seq 0 24).

(** Consecutive segments are one step apart. *)
Fixpoint chained (l : list pos) : bool :=
  match l with
  | a :: (b :: _) as l' =>
      (Z.abs (fst a - fst b) + Z.abs (snd a - snd b) =? grid_size) && chained l'
  | _ => true
  end.

Fixpoint distinct (l : list pos) : bool :=
  match l with
  | [] => true
  | a :: l' => negb (mem a l') && distinct l'
  end.

(** A tick at 1.000 s, a pointer above the head at 1.010 s, a pointer to the
    left of the head at 1.170 s; the frame that comes 0.16 s after its
    predecessor ticks again. *)
Definition reversal_frames : list ((nat -> Z) * frame) :=
  [ (rnd_100, mkFrame [] 1);
    (rnd_100, mkFrame [mkHand (1010 # 1000) 340 100] (1011 # 1000));
    (rnd_100, mkFrame [mkHand (1170 # 1000) 100 240] (1171 # 1000)) ].

Definition reversed : SnakeGame :=
  mkGame [(320, 240)] (-20, 0) (100, 100) 0 false (1171 # 1000) (1170 # 1000).

(** ** What [draw] hands to the drawing primitives *)

(** The two corners that [draw] passes to [cv2.rectangle] for a segment;
    both corners belong to the rectangle. *)
Definition segment_rect (segment : pos) : pos * pos :=
  (segment, (fst segment + grid_size - 2, snd segment + grid_size - 2)).

Definition snake_rects (g : SnakeGame) : list (pos * pos) :=
  map segment_rect (snake g).

(** A pixel of a rectangle given by two corners. *)
Definition in_rect (r : pos * pos) (px : pos) : Prop :=
  (fst (fst r) <= fst px <= fst (snd r)) /\
  (snd (fst r) <= snd px <= snd (snd r)).



(** ** The page around the game *)

(** [st.session_state]: the one game object, shared with the video
    processor, and the best score. *)
Record session : Type := mkSession {
  game : SnakeGame;
  high_score : Z
}.

(** First run of the script: a new game and a high score of 0. *)
Definition new_session (fuel : nat) (rnd : nat -> Z) (t0 t1 t2 : Q)
    : result session :=
  g <- init fuel rnd t0 t1 t2 ;;
  Ok (mkSession g 0).

(** The handler of the restart button. *)
Definition restart (fuel : nat) (rnd : nat -> Z) (now : Q)
    (s : session) : result session :=
  let high_score' :=
    if score (game s) >? high_score s then score (game s) else high_score s in
  g' <- reset_game fuel rnd now (game s) ;;
  Ok (mkSession g' high_score').

(** A video frame processed on the shared game object. *)
Definition on_frame (fuel : nat) (rnd : nat -> Z) (f : frame)
    (s : session) : result session :=
  g' <- recv fuel rnd f (game s) ;;
  Ok (mkSession g' (high_score s)).

(** Sessions the page can be in. *)
Inductive session_reachable : session -> Prop :=
| sess_new fuel rnd t0 t1 t2 s :
    new_session fuel rnd t0 t1 t2 = Ok s -> session_reachable s
| sess_restart fuel rnd now s s' :
    session_reachable s -> restart fuel rnd now s = Ok s' ->
    session_reachable s'
| sess_frame fuel rnd f s s' :
    session_reachable s -> on_frame fuel rnd f s = Ok s' ->
    session_reachable s'.

(** A source of raw integers whose every draw is the cell [p]. *)
Definition rnd_at (p : pos) : nat -> Z :=
  fun i => if Nat.even i then fst p / grid_size else snd p / grid_size.

(** A running game, two segments long, with the head at the right wall. *)
Definition at_right_wall : SnakeGame :=
  mkGame [(620, 100); (600, 100)] (20, 0) (100, 100) 10 false 0%Q 0%Q.

(** ** A game played until one cell is left *)

(** A walk over the whole board from the centre: first the two middle rows
    between the columns 11 and 20, then eleven rings outwards, each entered
    at its lower left, run right, up, left and down, and left by one more
    step down.  Each run is a heading and a number of steps. *)
Definition inner_runs : list (pos * nat) :=
  [ ((20, 0), 4%nat); ((0, -20), 1%nat); ((-20, 0), 5%nat); ((0, 20), 1%nat);
    ((-20, 0), 1%nat); ((0, -20), 1%nat); ((-20, 0), 1%nat); ((0, 20), 1%nat);
    ((-20, 0), 1%nat); ((0, -20), 1%nat); ((-20, 0), 1%nat); ((0, 20), 2%nat) ].

Definition ring_runs (r : nat) : list (pos * nat) :=
  [ ((20, 0), (30 - 2 * r)%nat); ((0, -20), (23 - 2 * r)%nat);
    ((-20, 0), (31 - 2 * r)%nat);
    ((0, 20), (23 - 2 * r + (if Nat.eqb r 0 then 0 else 1))%nat) ].

Definition spiral_moves : list pos :=
  flat_map (fun dn : pos * nat => repeat (fst dn) (snd dn))
           (inner_runs ++ flat_map ring_runs (rev (seq 0 11))).

(** One frame per move but the last, one second apart: a hand 60 pixels
    from the head where the walk turns, and raw integers that put the next
    food on the cell after the one being entered. *)
Fixpoint spiral_frames_from (ms : list pos) (head dir : pos) (t : Z)
    : list ((nat -> Z) * frame) :=
  match ms with
  | m :: ((m' :: _) as ms') =>
      let head' := (fst head + fst m, snd head + snd m) in
      let target := (fst head' + fst m', snd head' + snd m') in
      (rnd_at target,
       mkFrame (if pos_eqb m dir then []
                else [mkHand (inject_Z t) (fst head + 3 * fst m)
                             (snd head + 3 * snd m)])
               (inject_Z t))
      :: spiral_frames_from ms' head' m (t + 1)
  | _ => []
  end.

Definition spiral_frames : list ((nat -> Z) * frame) :=
  spiral_frames_from spiral_moves (320, 240) (20, 0) 1.

(** The game right after [__init__] with the first food at (340, 240). *)
Definition spiral_start : SnakeGame :=
  mkGame [(320, 240)] (20, 0) (340, 240) 0 false 0%Q 0%Q.

(** The game after those 766 frames: 767 segments, the head at (0, 440)
    heading down, the food on the only cell left, (0, 460). *)
Definition last_cell_game : SnakeGame :=
  Eval vm_compute in
    match run 1 spiral_frames spiral_start with
    | Ok (g, _) => g
    | _ => spiral_start
    end.

(** Every fingertip of a run lies inside a 640 x 480 frame. *)
Definition hands_in_frame (fs : list ((nat -> Z) * frame)) : bool :=
  forallb
    (fun rf : (nat -> Z) * frame =>
       forallb
         (fun h : hand =>
            (0 <=? finger_x h) && (finger_x h <? 640) &&
            (0 <=? finger_y h) && (finger_y h <? 480))
         (hands (snd rf)))
    fs.

(** ** Basic facts *)

Lemma Ok_inj {A : Type} (a b : A) : Ok a = Ok b -> a = b.
Proof. intros H; congruence. Qed.

Lemma pos_eqb_eq (a b : pos) : pos_eqb a b = true <-> a = b.
Proof.
  destruct a as [a1 a2], b as [b1 b2]; unfold pos_eqb; simpl.
  rewrite andb_true_iff, !Z.eqb_eq. split.
  - intros [-> ->]; reflexivity.
  - intros H; inversion H; auto.
Qed.

Lemma pos_eqb_neq (a b : pos) : pos_eqb a b = false <-> a <> b.
Proof.
  rewrite <- pos_eqb_eq. destruct (pos_eqb a b); split; congruence.
Qed.

Lemma mem_In (p : pos) (l : list pos) : mem p l = true <-> In p l.
Proof.
  induction l as [|q l IH]; simpl.
  - split; [discriminate | tauto].
  - rewrite orb_true_iff, IH, pos_eqb_eq. split; intros [H|H]; auto.
Qed.

Lemma mem_not_In (p : pos) (l : list pos) : mem p l = false <-> ~ In p l.
Proof.
  rewrite <- mem_In. destruct (mem p l); split; congruence.
Qed.

Lemma Qltb_lt (a b : Q) : Qltb a b = true <-> (a < b)%Q.
Proof.
  unfold Qltb. rewrite negb_true_iff. split.
  - intros H. apply Qnot_le_lt. intros Hle.
    apply Qle_bool_iff in Hle. congruence.
  - intros H. destruct (Qle_bool b a) eqn:E; [|reflexivity].
    apply Qle_bool_iff in E. exfalso. apply (Qlt_not_le _ _ H E).
Qed.

Lemma Qltb_ge (a b : Q) : Qltb a b = false <-> (b <= a)%Q.
Proof.
  unfold Qltb. rewrite negb_false_iff. apply Qle_bool_iff.
Qed.

Lemma in_gridb_iff (p : pos) : in_gridb p = true <-> in_grid p.
Proof.
  unfold in_gridb, in_grid.
  rewrite !andb_true_iff, !Z.leb_le, !Z.ltb_lt, !Z.eqb_eq. tauto.
Qed.

Lemma randint_range (lo hi raw : Z) :
  lo <= hi -> lo <= randint lo hi raw <= hi.
Proof.
  intros H. unfold randint.
  pose proof (Z.mod_pos_bound raw (hi - lo + 1)). lia.
Qed.

Lemma randint_hits (lo hi v : Z) :
  lo <= v <= hi -> randint lo hi (v - lo) = v.
Proof.
  intros H. unfold randint. rewrite Z.mod_small; lia.
Qed.

Lemma draw_in_grid (rnd : nat -> Z) (k : nat) : in_grid (draw rnd k).
Proof.
  unfold draw, in_grid; cbn [fst snd].
  change ((width - grid_size) / grid_size) with 31.
  change ((height - grid_size) / grid_size) with 23.
  pose proof (randint_range 0 31 (rnd (2 * k)%nat)).
  pose proof (randint_range 0 23 (rnd (S (2 * k)))).
  unfold width, height, grid_size.
  rewrite !Z.mod_mul by lia. lia.
Qed.

(** ** Food placement *)

Lemma generate_food_unfold (fuel : nat) (rnd : nat -> Z) (k : nat) (sn : list pos) :
  generate_food (S fuel) rnd (2 * k)%nat sn =
  if negb (mem (draw rnd k) sn) then Ok (draw rnd k)
  else generate_food fuel rnd (2 * S k)%nat sn.
Proof.
  replace (2 * S k)%nat with (S (S (2 * k))) by lia. reflexivity.
Qed.

(** A returned cell is the first drawn cell that is off the snake. *)
Lemma generate_food_first_free (fuel : nat) (rnd : nat -> Z) (sn : list pos) :
  forall (k0 : nat) (p : pos),
    generate_food fuel rnd (2 * k0)%nat sn = Ok p ->
    exists k : nat,
      (k0 <= k < k0 + fuel)%nat /\ p = draw rnd k /\ mem p sn = false /\
      forall j : nat, (k0 <= j < k)%nat -> mem (draw rnd j) sn = true.
Proof.
  induction fuel as [|fuel IH]; intros k0 p H.
  - discriminate.
  - rewrite generate_food_unfold in H.
    destruct (mem (draw rnd k0) sn) eqn:E; cbn [negb] in H.
    + destruct (IH (S k0) p H) as (k & Hk & Hp & Hm & Hj).
      exists k. repeat split; try lia; auto.
      intros j Hjk. destruct (Nat.eq_dec j k0) as [->|Hne]; auto.
      apply Hj. lia.
    + inversion H; subst p. exists k0. repeat split; try lia; auto.
Qed.

Lemma generate_food_free (fuel : nat) (rnd : nat -> Z) (sn : list pos) (p : pos) :
  generate_food fuel rnd 0 sn = Ok p -> in_grid p /\ ~ In p sn.
Proof.
  intros H. apply (generate_food_first_free fuel rnd sn 0 p) in H.
  destruct H as (k & _ & -> & Hm & _). split.
  - apply draw_in_grid.
  - apply mem_not_In; exact Hm.
Qed.

(** The loop returns as soon as the fuel reaches a free draw. *)
Lemma generate_food_returns (rnd : nat -> Z) (sn : list pos) (n : nat) :
  forall (k0 fuel : nat),
    mem (draw rnd (k0 + n)) sn = false -> (n < fuel)%nat ->
    exists p : pos, generate_food fuel rnd (2 * k0)%nat sn = Ok p.
Proof.
  induction n as [|n IH]; intros k0 fuel Hfree Hfuel;
    (destruct fuel as [|fuel]; [lia|]); rewrite generate_food_unfold.
  - rewrite Nat.add_0_r in Hfree. rewrite Hfree. cbn [negb]. eauto.
  - destruct (mem (draw rnd k0) sn); cbn [negb]; eauto.
    apply IH; [|lia]. replace (S k0 + n)%nat with (k0 + S n)%nat by lia.
    exact Hfree.
Qed.

Lemma generate_food_total (rnd : nat -> Z) (sn : list pos) :
  eventually_free rnd sn ->
  exists (fuel : nat) (p : pos), generate_food fuel rnd 0 sn = Ok p.
Proof.
  intros [k Hk]. exists (S k).
  apply (generate_food_returns rnd sn k 0 (S k)); auto.
Qed.

(** On a snake that covers every drawn cell the loop never returns. *)
Lemma generate_food_spins (rnd : nat -> Z) (sn : list pos) :
  (forall k : nat, mem (draw rnd k) sn = true) ->
  forall (fuel k0 : nat), generate_food fuel rnd (2 * k0)%nat sn = Spin.
Proof.
  intros Hall. induction fuel as [|fuel IH]; intros k0.
  - reflexivity.
  - rewrite generate_food_unfold, Hall. cbn [negb]. apply IH.
Qed.

(** More fuel never changes a result. *)
Lemma generate_food_more_fuel (rnd : nat -> Z) (sn : list pos) (p : pos) :
  forall (fuel fuel' i : nat),
    generate_food fuel rnd i sn = Ok p -> (fuel <= fuel')%nat ->
    generate_food fuel' rnd i sn = Ok p.
Proof.
  induction fuel as [|fuel IH]; intros fuel' i H Hle.
  - discriminate.
  - destruct fuel' as [|fuel']; [lia|]. simpl in *.
    destruct (negb (mem _ sn)); auto. apply IH; [exact H | lia].
Qed.

Lemma generate_food_never_raises (rnd : nat -> Z) (sn : list pos) :
  forall (fuel i : nat), generate_food fuel rnd i sn <> Raise.
Proof.
  induction fuel as [|fuel IH]; intros i; simpl.
  - discriminate.
  - destruct (negb (mem _ sn)); [discriminate | apply IH].
Qed.

(** ** One tick *)

Lemma update_skips (fuel : nat) (rnd : nat -> Z) (now : Q) (g : SnakeGame) :
  due now g = false -> update fuel rnd now g = Ok g.
Proof.
  unfold due, update. destruct (game_over g); simpl; [reflexivity|].
  destruct (Qltb (now - last_update g) game_speed); simpl; congruence.
Qed.

Lemma update_acts (fuel : nat) (rnd : nat -> Z) (now : Q) (g : SnakeGame) :
  due now g = true -> update fuel rnd now g = advance fuel rnd now g.
Proof.
  unfold due, update. destruct (game_over g); simpl; [discriminate|].
  destruct (Qltb (now - last_update g) game_speed); simpl; congruence.
Qed.

Lemma due_true (now : Q) (g : SnakeGame) :
  due now g = true <->
  game_over g = false /\ (game_speed <= now - last_update g)%Q.
Proof.
  unfold due. rewrite andb_true_iff, !negb_true_iff, Qltb_ge. tauto.
Qed.

Lemma due_false (now : Q) (g : SnakeGame) :
  due now g = false <->
  game_over g = true \/ (now - last_update g < game_speed)%Q.
Proof.
  unfold due. rewrite andb_false_iff, !negb_false_iff, Qltb_lt. tauto.
Qed.

Lemma advance_transition (fuel : nat) (rnd : nat -> Z) (now : Q) (g g' : SnakeGame) :
  advance fuel rnd now g = Ok g' ->
  transition g g' /\ last_update g' = now /\
  direction g' = direction g /\
  last_direction_change g' = last_direction_change g.
Proof.
  unfold advance. cbn [snake set_last_update].
  destruct (snake g) as [|head rest] eqn:Hs; [discriminate|].
  change (new_head_of (set_last_update now g) head) with (new_head_of g head).
  destruct (collides (new_head_of g head) rest) eqn:Hc.
  - intros H; injection H as <-. split; [|auto].
    eapply tr_crash; eauto.
  - cbn [food direction score game_over last_update last_direction_change
           set_last_update].
    destruct (pos_eqb (new_head_of g head) (food g)) eqn:Hf.
    + destruct (generate_food fuel rnd 0 (new_head_of g head :: head :: rest))
        as [p| |] eqn:Hg; cbn [bind]; try discriminate.
      intros H; injection H as <-. split; [|auto].
      apply generate_food_free in Hg. destruct Hg as [Hgrid Hfree].
      apply pos_eqb_eq in Hf.
      eapply tr_eat; eauto; cbn; rewrite ?Hs; auto.
    + intros H; injection H as <-. split; [|auto].
      apply pos_eqb_neq in Hf.
      eapply tr_move; eauto; cbn; rewrite ?Hs; auto.
Qed.

(** A tick that acts returns, unless it eats and the random source never
    draws a free cell. *)
Lemma advance_returns (rnd : nat -> Z) (now : Q) (g : SnakeGame)
    (head : pos) (rest : list pos) :
  snake g = head :: rest ->
  collides (new_head_of g head) rest = true \/
  new_head_of g head <> food g \/
  eventually_free rnd (new_head_of g head :: snake g) ->
  exists (fuel : nat) (g' : SnakeGame), advance fuel rnd now g = Ok g'.
Proof.
  intros Hs H. unfold advance. cbn [snake set_last_update]. rewrite Hs.
  change (new_head_of (set_last_update now g) head) with (new_head_of g head).
  destruct (collides (new_head_of g head) rest) eqn:Hc.
  - exists O; eauto.
  - cbn [food set_last_update].
    destruct (pos_eqb (new_head_of g head) (food g)) eqn:Hf.
    + destruct H as [H|[H|H]]; [discriminate | | ].
      * apply pos_eqb_eq in Hf. contradiction.
      * rewrite Hs in H. destruct (generate_food_total _ _ H) as (fuel & p & Hp).
        exists fuel. rewrite Hp. cbn [bind]. eauto.
    + exists O; eauto.
Qed.

(** Without food under the new head no random number is read, so the tick
    returns whatever the fuel. *)
Lemma advance_no_food_returns (fuel : nat) (rnd : nat -> Z) (now : Q)
    (g : SnakeGame) (head : pos) (rest : list pos) :
  snake g = head :: rest ->
  collides (new_head_of g head) rest = true \/ new_head_of g head <> food g ->
  exists g' : SnakeGame, advance fuel rnd now g = Ok g'.
Proof.
  intros Hs H. unfold advance. cbn [snake set_last_update]. rewrite Hs.
  change (new_head_of (set_last_update now g) head) with (new_head_of g head).
  destruct (collides (new_head_of g head) rest) eqn:Hc; eauto.
  cbn [food set_last_update].
  destruct (pos_eqb (new_head_of g head) (food g)) eqn:Hf; eauto.
  destruct H as [H|H]; [discriminate|]. apply pos_eqb_eq in Hf. contradiction.
Qed.

(** A tick that eats returns once the fuel reaches a draw off the new
    snake. *)
Lemma advance_returns_within (rnd : nat -> Z) (now : Q) (g : SnakeGame)
    (head : pos) (rest : list pos) (k : nat) :
  snake g = head :: rest ->
  mem (draw rnd k) (new_head_of g head :: snake g) = false ->
  exists g' : SnakeGame, advance (S k) rnd now g = Ok g'.
Proof.
  intros Hs Hk. unfold advance. cbn [snake set_last_update]. rewrite Hs.
  change (new_head_of (set_last_update now g) head) with (new_head_of g head).
  destruct (collides (new_head_of g head) rest); [eauto|].
  cbn [food set_last_update].
  destruct (pos_eqb (new_head_of g head) (food g)); [|eauto].
  rewrite Hs in Hk.
  destruct (generate_food_returns rnd _ k 0 (S k) Hk (Nat.lt_succ_diag_r k))
    as [p Hp].
  change (2 * 0)%nat with 0%nat in Hp. rewrite Hp. cbn [bind]. eauto.
Qed.

(** A tick that eats never returns when every draw is on the new snake. *)
Lemma advance_eat_spins (rnd : nat -> Z) (now : Q) (g : SnakeGame)
    (head : pos) (rest : list pos) :
  snake g = head :: rest ->
  collides (new_head_of g head) rest = false ->
  new_head_of g head = food g ->
  (forall k : nat, mem (draw rnd k) (new_head_of g head :: snake g) = true) ->
  forall fuel : nat, advance fuel rnd now g = Spin.
Proof.
  intros Hs Hc Hf Hall fuel. unfold advance. cbn [snake set_last_update].
  rewrite Hs.
  change (new_head_of (set_last_update now g) head) with (new_head_of g head).
  rewrite Hc. cbn [food set_last_update]. rewrite Hf, (proj2 (pos_eqb_eq _ _) eq_refl).
  rewrite Hs, Hf in Hall.
  pose proof (generate_food_spins rnd _ Hall fuel 0) as Hsp.
  change (2 * 0)%nat with 0%nat in Hsp. rewrite Hsp. reflexivity.
Qed.

(** ** [list.pop()] *)

Lemma removelast_In (x : pos) (l : list pos) : In x (removelast l) -> In x l.
Proof.
  induction l as [|a l IH]; simpl; [tauto|].
  destruct l as [|b l]; [simpl; tauto|].
  intros [H|H]; [left; exact H | right; apply IH; exact H].
Qed.

Lemma removelast_NoDup (l : list pos) : NoDup l -> NoDup (removelast l).
Proof.
  induction l as [|a l IH]; simpl; intros H; [constructor|].
  destruct l as [|b l]; [constructor|].
  inversion H as [|? ? Hn Hd]; subst. constructor.
  - intros Hin. apply Hn. apply removelast_In. exact Hin.
  - apply IH. exact Hd.
Qed.

Lemma removelast_Forall (P : pos -> Prop) (l : list pos) :
  Forall P l -> Forall P (removelast l).
Proof.
  rewrite !Forall_forall. intros H x Hx. apply H, removelast_In, Hx.
Qed.

Lemma removelast_cons_length (a : pos) (l : list pos) :
  length (removelast (a :: l)) = length l.
Proof.
  revert a. induction l as [|b l IH]; intros a; [reflexivity|].
  change (removelast (a :: b :: l)) with (a :: removelast (b :: l)).
  cbn [length]. rewrite (IH b). reflexivity.
Qed.

Lemma removelast_cons_nonempty (a b : pos) (l : list pos) :
  removelast (a :: b :: l) <> [].
Proof. simpl. discriminate. Qed.

(** ** The resolver *)


Lemma no_reverse_spec (g : SnakeGame) (d : pos) :
  no_reverse g d = direction g \/
  (no_reverse g d = d /\ direction g <> negate d).
Proof.
  unfold no_reverse, negate.
  destruct (pos_eqb (fst d * -1, snd d * -1) (direction g)) eqn:E; [left; reflexivity|].
  right. split; [reflexivity|]. apply pos_eqb_neq in E.
  intros H. apply E. rewrite H.
  f_equal; lia.
Qed.

(** The resolver answers with the current direction or with a cardinal
    direction that is not the negation of the current one. *)
Lemma get_hand_direction_spec (g : SnakeGame) (fx fy : Z) (d : pos) :
  get_hand_direction g fx fy = Ok d ->
  d = direction g \/ (cardinal d /\ direction g <> negate d).
Proof.
  unfold get_hand_direction.
  destruct (snake g) as [|[hx hy] rest]; [discriminate|].
  cbv zeta. set (dx := fx - hx). set (dy := fy - hy).
  assert (Hc : forall b : bool, cardinal (if b then (grid_size, 0) else (- grid_size, 0)))
    by (intros []; unfold cardinal; auto).
  assert (Hc' : forall b : bool, cardinal (if b then (0, grid_size) else (0, - grid_size)))
    by (intros []; unfold cardinal; auto).
  destruct ((Z.abs dx >? Z.abs dy) && (Z.abs dx >? dead_zone)).
  - intros H; apply Ok_inj in H; subst d.
    destruct (no_reverse_spec g (if dx >? 0 then (grid_size, 0) else (- grid_size, 0)))
      as [E|[E Hn]]; rewrite E; auto.
  - destruct ((Z.abs dy >? Z.abs dx) && (Z.abs dy >? dead_zone)).
    + intros H; apply Ok_inj in H; subst d.
      destruct (no_reverse_spec g (if dy >? 0 then (0, grid_size) else (0, - grid_size)))
        as [E|[E Hn]]; rewrite E; auto.
    + intros H; apply Ok_inj in H; subst d. auto.
Qed.

Lemma steer_spec (h : hand) (g g' : SnakeGame) :
  steer h g = Ok g' ->
  snake g' = snake g /\ food g' = food g /\ score g' = score g /\
  game_over g' = game_over g /\ last_update g' = last_update g /\
  (g' = g \/
   (direction g' <> direction g /\ cardinal (direction g') /\
    direction g <> negate (direction g') /\
    last_direction_change g' = hand_time h /\
    (direction_cooldown < hand_time h - last_direction_change g)%Q)).
Proof.
  unfold steer.
  destruct (Qltb direction_cooldown (hand_time h - last_direction_change g)) eqn:Ht.
  - destruct (get_hand_direction g (finger_x h) (finger_y h)) as [d| |] eqn:Hd;
      cbn [bind]; try discriminate.
    destruct (pos_eqb d (direction g)) eqn:E; cbn [negb].
    + intros H; injection H as <-. repeat split; auto.
    + intros H; injection H as <-. cbn. repeat split; auto.
      right. apply pos_eqb_neq in E. apply Qltb_lt in Ht.
      destruct (get_hand_direction_spec _ _ _ _ Hd) as [Hd'|[Hc Hn]];
        [contradiction|]. auto.
  - intros H; injection H as <-. repeat split; auto.
Qed.

Lemma steer_all_spec (hs : list hand) :
  forall g g' : SnakeGame,
    steer_all hs g = Ok g' ->
    snake g' = snake g /\ food g' = food g /\ score g' = score g /\
    game_over g' = game_over g /\ last_update g' = last_update g /\
    (cardinal (direction g) -> cardinal (direction g')).
Proof.
  induction hs as [|h hs IH]; intros g g'; cbn [steer_all].
  - intros H; injection H as <-. repeat split; auto.
  - destruct (steer h g) as [g1| |] eqn:E; cbn [bind]; try discriminate.
    intros H. apply IH in H. apply steer_spec in E.
    destruct H as (H1 & H2 & H3 & H4 & H5 & H6).
    destruct E as (E1 & E2 & E3 & E4 & E5 & E6).
    repeat split; try congruence.
    intros Hc. apply H6. destruct E6 as [->|(_ & Hc' & _)]; auto.
Qed.

Lemma recv_steer_spec (f : frame) (g g' : SnakeGame) :
  recv_steer f g = Ok g' ->
  snake g' = snake g /\ food g' = food g /\ score g' = score g /\
  game_over g' = game_over g /\ last_update g' = last_update g /\
  (cardinal (direction g) -> cardinal (direction g')).
Proof.
  unfold recv_steer. destruct (negb (game_over g)).
  - apply steer_all_spec.
  - intros H; injection H as <-. repeat split; auto.
Qed.

(** ** The invariant *)

Lemma collides_false (p : pos) (rest : list pos) :
  collides p rest = false <->
  0 <= fst p < width /\ 0 <= snd p < height /\ ~ In p rest.
Proof.
  unfold collides. rewrite !orb_false_iff, mem_not_In.
  rewrite !Z.ltb_ge, !Z.geb_leb, !Z.leb_gt. tauto.
Qed.

Lemma new_head_aligned (g : SnakeGame) (head : pos) :
  cardinal (direction g) -> in_grid head ->
  fst (new_head_of g head) mod grid_size = 0 /\
  snd (new_head_of g head) mod grid_size = 0.
Proof.
  unfold in_grid, new_head_of, cardinal, grid_size.
  intros Hd (_ & _ & Hx & Hy).
  apply Z.mod_divide in Hx; [|lia]. apply Z.mod_divide in Hy; [|lia].
  destruct Hx as [qx Hx], Hy as [qy Hy].
  destruct Hd as [ -> | [ -> | [ -> | -> ] ] ]; cbn [fst snd];
    split; apply Z.mod_divide; try lia.
  - exists (qx + 1); lia.
  - exists qy; lia.
  - exists (qx - 1); lia.
  - exists qy; lia.
  - exists qx; lia.
  - exists (qy + 1); lia.
  - exists qx; lia.
  - exists (qy - 1); lia.
Qed.

Lemma new_head_moves (g : SnakeGame) (head : pos) :
  cardinal (direction g) -> new_head_of g head <> head.
Proof.
  unfold new_head_of, cardinal, grid_size. destruct head as [hx hy].
  intros [ -> | [ -> | [ -> | -> ] ] ]; cbn [fst snd]; intros H; inversion H; lia.
Qed.

Lemma transition_invariant (g g' : SnakeGame) :
  invariant g -> transition g g' -> direction g' = direction g ->
  invariant g'.
Proof.
  intros [Hne Hgrid Hnd Hdir Hfg Hff Hsc] Htr Hd'.
  destruct Htr as
    [head rest Hs Hc Hs' Hf' Hsc' Ho
    |head rest Hs Hc Hnf Hs' Hfg' Hff' Hsc' Ho
    |head rest Hs Hc Hnf Hs' Hf' Hsc' Ho].
  - constructor; rewrite ?Hs', ?Hf', ?Hsc', ?Hd'; auto.
  - apply collides_false in Hc. destruct Hc as (Hx & Hy & Hnr).
    rewrite Hs in Hgrid, Hnd.
    pose proof (Forall_inv Hgrid) as Hhead.
    destruct (new_head_aligned g head Hdir Hhead) as [Hax Hay].
    constructor; rewrite ?Hd'; auto.
    + rewrite Hs'. discriminate.
    + rewrite Hs', Hs. constructor; [|exact Hgrid].
      unfold in_grid. auto.
    + rewrite Hs', Hs. constructor; [|exact Hnd].
      intros [Hin|Hin]; [|contradiction].
      apply (new_head_moves g head Hdir). symmetry; exact Hin.
    + rewrite Hsc', Hsc, Hs'. cbn [length]. lia.
  - apply collides_false in Hc. destruct Hc as (Hx & Hy & Hnr).
    rewrite Hs in Hgrid, Hnd, Hff.
    pose proof (Forall_inv Hgrid) as Hhead.
    destruct (new_head_aligned g head Hdir Hhead) as [Hax Hay].
    assert (Hgrid1 : Forall in_grid (new_head_of g head :: head :: rest)).
    { constructor; [|exact Hgrid]. unfold in_grid. auto. }
    assert (Hnd1 : NoDup (new_head_of g head :: head :: rest)).
    { constructor; [|exact Hnd].
      intros [Hin|Hin]; [|contradiction].
      apply (new_head_moves g head Hdir). symmetry; exact Hin. }
    constructor; rewrite ?Hd', ?Hf'; auto.
    + rewrite Hs', Hs. apply removelast_cons_nonempty.
    + rewrite Hs', Hs. apply removelast_Forall. exact Hgrid1.
    + rewrite Hs', Hs. apply removelast_NoDup. exact Hnd1.
    + rewrite Hs', Hs. intros Hin. apply removelast_In in Hin.
      destruct Hin as [Hin|Hin]; [|contradiction].
      apply Hnf. exact Hin.
    + rewrite Hsc', Hsc, Hs', removelast_cons_length. reflexivity.
Qed.

Lemma reset_game_spec (fuel : nat) (rnd : nat -> Z) (now : Q) (g g' : SnakeGame) :
  reset_game fuel rnd now g = Ok g' ->
  snake g' = [(320, 240)] /\ direction g' = (grid_size, 0) /\
  score g' = 0 /\ game_over g' = false /\ last_update g' = now /\
  last_direction_change g' = last_direction_change g /\
  in_grid (food g') /\ ~ In (food g') (snake g').
Proof.
  unfold reset_game. cbv zeta.
  destruct (generate_food fuel rnd 0 [(width / 2, height / 2)]) as [p| |] eqn:E;
    cbn [bind]; try discriminate.
  intros H; apply Ok_inj in H; subst g'. cbn.
  apply generate_food_free in E. destruct E as [E1 E2].
  do 6 (split; [reflexivity|]). split; assumption.
Qed.

Lemma reset_game_invariant (fuel : nat) (rnd : nat -> Z) (now : Q) (g g' : SnakeGame) :
  reset_game fuel rnd now g = Ok g' -> invariant g'.
Proof.
  intros H. apply reset_game_spec in H.
  destruct H as (Hs & Hd & Hsc & _ & _ & _ & Hfg & Hff).
  constructor; auto.
  - rewrite Hs; discriminate.
  - rewrite Hs. constructor; [|constructor].
    apply in_gridb_iff. reflexivity.
  - rewrite Hs. constructor; [simpl; tauto | constructor].
  - rewrite Hd. unfold cardinal; auto.
  - rewrite Hsc, Hs. reflexivity.
Qed.

Lemma init_invariant (fuel : nat) (rnd : nat -> Z) (t0 t1 t2 : Q) (g : SnakeGame) :
  init fuel rnd t0 t1 t2 = Ok g -> invariant g.
Proof.
  unfold init. cbv zeta.
  destruct (reset_game fuel rnd t0 _) as [g0| |] eqn:E; cbn [bind]; try discriminate.
  intros H; apply Ok_inj in H; subst g.
  apply reset_game_invariant in E. destruct E. constructor; auto.
Qed.

Lemma update_invariant (fuel : nat) (rnd : nat -> Z) (now : Q) (g g' : SnakeGame) :
  invariant g -> update fuel rnd now g = Ok g' -> invariant g'.
Proof.
  intros Hinv H. destruct (due now g) eqn:Hdue.
  - rewrite update_acts in H by exact Hdue.
    apply advance_transition in H. destruct H as (Htr & _ & Hd & _).
    eapply transition_invariant; eauto.
  - rewrite update_skips in H by exact Hdue. apply Ok_inj in H; subst g'.
    exact Hinv.
Qed.

Lemma recv_steer_invariant (f : frame) (g g' : SnakeGame) :
  invariant g -> recv_steer f g = Ok g' -> invariant g'.
Proof.
  intros [Hne Hgrid Hnd Hdir Hfg Hff Hsc] H.
  apply recv_steer_spec in H. destruct H as (Hs & Hf & Hc & _ & _ & Hd).
  constructor; rewrite ?Hs, ?Hf, ?Hc; auto.
Qed.

Lemma recv_invariant (fuel : nat) (rnd : nat -> Z) (f : frame) (g g' : SnakeGame) :
  invariant g -> recv fuel rnd f g = Ok g' -> invariant g'.
Proof.
  unfold recv. intros Hinv.
  destruct (recv_steer f g) as [g1| |] eqn:E; cbn [bind]; try discriminate.
  apply update_invariant. eapply recv_steer_invariant; eauto.
Qed.

Lemma reachable_invariant (g : SnakeGame) : reachable g -> invariant g.
Proof.
  induction 1 as
    [fuel rnd t0 t1 t2 g H
    |fuel rnd now g g' _ _ H
    |fuel rnd f g g' _ IH H
    |fuel rnd now g g' _ IH H].
  - eapply init_invariant; eauto.
  - eapply reset_game_invariant; eauto.
  - eapply recv_invariant; eauto.
  - eapply update_invariant; eauto.
Qed.

(** ** The freshly constructed game *)

Lemma start_init : init 1 rnd_100 0 0 0 = Ok start.
Proof. reflexivity. Qed.

Lemma start_reachable : reachable start.
Proof. exact (reach_init 1 rnd_100 0%Q 0%Q 0%Q start start_init). Qed.

(** ** The resolver's dead zone *)

(** C6: with displacement (dx, dy) of the pointer from the head, the resolver
    returns the current direction (no change) when both |dx| and |dy| are at
    most the dead zone of 40 or when |dx| = |dy|; whenever it returns a
    different direction, one axis strictly dominates the other and strictly
    exceeds the dead zone. *)
Theorem get_hand_direction_dead_zone
    (g : SnakeGame) (fx fy hx hy : Z) (rest : list pos) :
  snake g = (hx, hy) :: rest ->
  ((Z.abs (fx - hx) <= dead_zone /\ Z.abs (fy - hy) <= dead_zone) \/
   Z.abs (fx - hx) = Z.abs (fy - hy) ->
   get_hand_direction g fx fy = Ok (direction g)) /\
  (forall d : pos,
     get_hand_direction g fx fy = Ok d -> d <> direction g ->
     (Z.abs (fy - hy) < Z.abs (fx - hx) /\ dead_zone < Z.abs (fx - hx)) \/
     (Z.abs (fx - hx) < Z.abs (fy - hy) /\ dead_zone < Z.abs (fy - hy))).
Proof.
  intros Hs. unfold get_hand_direction. rewrite Hs. cbv zeta.
  set (dx := fx - hx). set (dy := fy - hy).
  destruct ((Z.abs dx >? Z.abs dy) && (Z.abs dx >? dead_zone)) eqn:E1.
  - apply andb_true_iff in E1. destruct E1 as [E1 E1'].
    apply Z.gtb_lt in E1, E1'. split.
    + intros [[H _]|H]; lia.
    + intros d _ _. left. split; assumption.
  - destruct ((Z.abs dy >? Z.abs dx) && (Z.abs dy >? dead_zone)) eqn:E2.
    + apply andb_true_iff in E2. destruct E2 as [E2 E2'].
      apply Z.gtb_lt in E2, E2'. split.
      * intros [[_ H]|H]; lia.
      * intros d _ _. right. split; assumption.
    + split; [reflexivity|].
      intros d H Hne. apply Ok_inj in H. congruence.
Qed.

(** The dead-zone scenario of the specification: head at (320, 240), pointer
    at (330, 245). *)
Lemma get_hand_direction_dead_zone_witness :
  snake start = (320, 240) :: [] /\
  (Z.abs (330 - 320) <= dead_zone /\ Z.abs (245 - 240) <= dead_zone) /\
  get_hand_direction start 330 245 = Ok (direction start).
Proof.
  split; [reflexivity|]. split; [unfold dead_zone; simpl; lia|].
  apply (proj1 (get_hand_direction_dead_zone start 330 245 320 240 [] eq_refl)).
  left. unfold dead_zone; simpl; lia.
Defined.

(** On the boundary itself (|dx| = 40) nothing changes; one pixel further
    the direction does. *)
Example dead_zone_boundary :
  get_hand_direction start 320 280 = Ok (direction start) /\
  get_hand_direction start 320 281 = Ok (0, 20).
Proof. split; reflexivity. Qed.

(** ** Game over *)

Lemma updates_over (fuel : nat) (rnd : nat -> Z) (g : SnakeGame) (ts : list Q) :
  game_over g = true -> updates fuel rnd ts g = Ok g.
Proof.
  intros Ho. induction ts as [|t ts IH]; cbn [updates]; [reflexivity|].
  rewrite update_skips by (apply due_false; auto). exact IH.
Qed.

Lemma recv_over (fuel : nat) (rnd : nat -> Z) (f : frame) (g : SnakeGame) :
  game_over g = true -> recv fuel rnd f g = Ok g.
Proof.
  intros Ho. unfold recv, recv_steer. rewrite Ho. cbn [negb bind].
  apply update_skips, due_false; auto.
Qed.

(** C8: once the game is over, any number of calls of [update], and of the
    whole frame callback, return the state unchanged (so it stays over);
    [reset_game] is the operation that makes it running again. *)
Theorem game_over_is_absorbing (fuel : nat) (rnd : nat -> Z) (g : SnakeGame) :
  game_over g = true ->
  (forall ts : list Q, updates fuel rnd ts g = Ok g) /\
  (forall fs : list frame, recvs fuel rnd fs g = Ok g) /\
  (forall (now : Q) (g' : SnakeGame),
     reset_game fuel rnd now g = Ok g' -> game_over g' = false) /\
  (forall now : Q,
     eventually_free rnd [(width / 2, height / 2)] ->
     exists (fuel' : nat) (g' : SnakeGame),
       reset_game fuel' rnd now g = Ok g' /\ game_over g' = false).
Proof.
  intros Ho. split; [|split; [|split]].
  - intros ts. apply updates_over; exact Ho.
  - intros fs. induction fs as [|f fs IH]; cbn [recvs]; [reflexivity|].
    rewrite recv_over by exact Ho. exact IH.
  - intros now g' H. apply reset_game_spec in H. tauto.
  - intros now Hfree. destruct (generate_food_total _ _ Hfree) as (fuel' & p & Hp).
    exists fuel'. unfold reset_game. cbv zeta. rewrite Hp. cbn [bind].
    eexists. split; reflexivity.
Qed.

Example wall_collision : update 0 rnd_100 1 at_left_wall = Ok crashed.
Proof. reflexivity. Qed.

Lemma game_over_is_absorbing_witness :
  game_over crashed = true /\
  updates 1 rnd_100 [2%Q; 3%Q; 4%Q] crashed = Ok crashed /\
  recvs 1 rnd_100 [mkFrame [mkHand 5 320 0] 5; mkFrame [] 6] crashed = Ok crashed /\
  exists g' : SnakeGame,
    reset_game 1 rnd_100 7 crashed = Ok g' /\ game_over g' = false.
Proof.
  pose proof (game_over_is_absorbing 1 rnd_100 crashed eq_refl) as (H1 & H2 & H3 & _).
  split; [reflexivity|]. split; [apply H1|]. split; [apply H2|].
  eexists. split; [reflexivity|]. eapply H3. reflexivity.
Defined.

(** ** The cooldown stamp *)

Lemma steer_throttled (h : hand) (g : SnakeGame) :
  (hand_time h - last_direction_change g <= direction_cooldown)%Q ->
  steer h g = Ok g.
Proof.
  intros H. unfold steer. apply Qltb_ge in H. rewrite H. reflexivity.
Qed.

(** C10: [reset_game] leaves [last_direction_change] as it was, so a hand
    seen within the cooldown of a change made in the previous game is
    ignored after the restart; the stamp is written by [__init__] and by an
    accepted direction change only, [update] never touches it. *)
Theorem reset_game_keeps_cooldown
    (fuel : nat) (rnd : nat -> Z) (now : Q) (g g' : SnakeGame) :
  reset_game fuel rnd now g = Ok g' ->
  last_direction_change g' = last_direction_change g /\
  (forall h : hand,
     (hand_time h - last_direction_change g <= direction_cooldown)%Q ->
     steer h g' = Ok g') /\
  (forall (fuel1 : nat) (rnd1 : nat -> Z) (t : Q) (g1 : SnakeGame),
     update fuel1 rnd1 t g' = Ok g1 ->
     last_direction_change g1 = last_direction_change g) /\
  (forall (h : hand) (g1 : SnakeGame),
     steer h g' = Ok g1 ->
     last_direction_change g1 = last_direction_change g \/
     (direction g1 <> direction g' /\ last_direction_change g1 = hand_time h)).
Proof.
  intros H. apply reset_game_spec in H.
  destruct H as (_ & _ & _ & _ & _ & Hl & _).
  split; [exact Hl|]. split; [|split].
  - intros h Hh. apply steer_throttled. rewrite Hl. exact Hh.
  - intros fuel1 rnd1 t g1 Hu. rewrite <- Hl.
    destruct (due t g') eqn:Hdue.
    + rewrite update_acts in Hu by exact Hdue.
      apply advance_transition in Hu. tauto.
    + rewrite update_skips in Hu by exact Hdue.
      apply Ok_inj in Hu. subst g1. reflexivity.
  - intros h g1 Hst. apply steer_spec in Hst.
    destruct Hst as (_ & _ & _ & _ & _ & [->|(Hd & _ & _ & Ht & _)]).
    + left. exact Hl.
    + right. split; assumption.
Qed.

(** Restart at 10.00 s; a hand pointing up at 10.05 s is still throttled,
    although the resolver itself would turn the snake. *)
Lemma reset_game_keeps_cooldown_witness :
  exists g' : SnakeGame,
    reset_game 1 rnd_100 10 previous_game = Ok g' /\
    last_direction_change g' = (995 # 100)%Q /\
    get_hand_direction g' 320 100 = Ok (0, -20) /\
    steer (mkHand (1005 # 100) 320 100) g' = Ok g'.
Proof.
  eexists. split; [reflexivity|].
  pose proof (reset_game_keeps_cooldown 1 rnd_100 10 previous_game _ eq_refl)
    as (H1 & H2 & _).
  split; [exact H1|]. split; [reflexivity|].
  apply H2. vm_compute. discriminate.
Defined.

(** ** The tick clock *)

Lemma updates_skip (fuel : nat) (rnd : nat -> Z) (g : SnakeGame) (ts : list Q) :
  Forall (fun t : Q => (t - last_update g < game_speed)%Q) ts ->
  updates fuel rnd ts g = Ok g.
Proof.
  induction 1 as [|t ts Ht _ IH]; cbn [updates]; [reflexivity|].
  rewrite update_skips by (apply due_false; auto). exact IH.
Qed.

(** C4, as the code has it: while the game runs, calls of [update] at clock
    readings less than [game_speed] after the last acted tick leave the state
    unchanged, however many there are.  A call at [game_speed] or more after
    it returns for every fuel when the tick does not eat, and when it eats as
    soon as the random source draws a cell off the new snake; whenever it
    returns it has performed exactly one transition (one head move, or the
    end of the game) and stamped the clock, so that the next window starts.
    When the tick eats and the random source never draws a cell off the new
    snake, the call never returns. *)
Theorem update_rate_limited
    (fuel : nat) (rnd : nat -> Z) (g : SnakeGame) (ts : list Q) (now : Q)
    (head : pos) (rest : list pos) :
  game_over g = false ->
  snake g = head :: rest ->
  Forall (fun t : Q => (t - last_update g < game_speed)%Q) ts ->
  (game_speed <= now - last_update g)%Q ->
  updates fuel rnd ts g = Ok g /\
  (forall g' : SnakeGame,
     update fuel rnd now g = Ok g' ->
     transition g g' /\ last_update g' = now /\
     forall t : Q, (t - now < game_speed)%Q -> update fuel rnd t g' = Ok g') /\
  (collides (new_head_of g head) rest = true \/ new_head_of g head <> food g ->
   exists g' : SnakeGame, update fuel rnd now g = Ok g') /\
  (forall k : nat,
     mem (draw rnd k) (new_head_of g head :: snake g) = false ->
     exists g' : SnakeGame, update (S k) rnd now g = Ok g') /\
  (collides (new_head_of g head) rest = false ->
   new_head_of g head = food g ->
   (forall k : nat, mem (draw rnd k) (new_head_of g head :: snake g) = true) ->
   forall fuel' : nat, update fuel' rnd now g = Spin).
Proof.
  intros Hrun Hs Hts Hnow.
  assert (Hdue : due now g = true) by (apply due_true; auto).
  split; [apply updates_skip; exact Hts|]. split; [|split; [|split]].
  - intros g' H. rewrite update_acts in H by exact Hdue.
    apply advance_transition in H. destruct H as (Htr & Hlu & _).
    split; [exact Htr|]. split; [exact Hlu|].
    intros t Ht. apply update_skips, due_false. right. rewrite Hlu. exact Ht.
  - intros H. rewrite update_acts by exact Hdue.
    exact (advance_no_food_returns fuel rnd now g head rest Hs H).
  - intros k Hk. rewrite update_acts by exact Hdue.
    exact (advance_returns_within rnd now g head rest k Hs Hk).
  - intros Hc Hf Hall fuel'. rewrite update_acts by exact Hdue.
    exact (advance_eat_spins rnd now g head rest Hs Hc Hf Hall fuel').
Qed.

(** The rate scenario of the specification: twelve calls from 0.00 s to
    0.11 s after a tick at 0 move nothing, the call at 0.13 s moves the head
    by one cell. *)
Lemma update_rate_limited_witness :
  game_over start = false /\
  updates 0 rnd_100
    [0 # 100; 1 # 100; 2 # 100; 3 # 100; 4 # 100; 5 # 100;
     6 # 100; 7 # 100; 8 # 100; 9 # 100; 10 # 100; 11 # 100]%Q start = Ok start /\
  exists g' : SnakeGame,
    update 0 rnd_100 (13 # 100) start = Ok g' /\
    transition start g' /\ last_update g' = (13 # 100)%Q.
Proof.
  assert (Hts : Forall (fun t : Q => (t - last_update start < game_speed)%Q)
    [0 # 100; 1 # 100; 2 # 100; 3 # 100; 4 # 100; 5 # 100;
     6 # 100; 7 # 100; 8 # 100; 9 # 100; 10 # 100; 11 # 100]%Q).
  { repeat constructor. }
  assert (Hnow : (game_speed <= (13 # 100) - last_update start)%Q).
  { vm_compute. discriminate. }
  pose proof (update_rate_limited 0 rnd_100 start _ (13 # 100)%Q (320, 240) []
                eq_refl eq_refl Hts Hnow)
    as (H1 & H2 & H3 & _).
  split; [reflexivity|]. split; [exact H1|].
  destruct H3 as [g' Hg']; [right; discriminate|].
  exists g'. split; [exact Hg'|].
  destruct (H2 g' Hg') as (Htr & Hlu & _). split; assumption.
Defined.

(** The head of that game moves from (320, 240) to (340, 240). *)
Example first_tick_moves :
  update 0 rnd_100 (13 # 100) start =
  Ok (mkGame [(340, 240)] (20, 0) (100, 100) 0 false (13 # 100) 0).
Proof. reflexivity. Qed.

(** ** Growth *)

(** In a state that satisfies the invariant the cell of the food is never a
    collision: it is on the board and off the snake. *)
Lemma food_never_collides (g : SnakeGame) (head : pos) (rest : list pos) :
  invariant g -> snake g = head :: rest ->
  new_head_of g head = food g ->
  collides (new_head_of g head) rest = false.
Proof.
  intros Hinv Hs Hf. apply collides_false. rewrite Hf.
  destruct (inv_food_grid g Hinv) as (Hx & Hy & _).
  pose proof (inv_food_free g Hinv) as Hfree. rewrite Hs in Hfree.
  repeat split; try lia. intros Hin. apply Hfree. right. exact Hin.
Qed.

(** So in a reachable state a head that reaches the food always moves. *)
Lemma reachable_food_never_collides (g : SnakeGame) (head : pos) (rest : list pos) :
  reachable g -> snake g = head :: rest ->
  new_head_of g head = food g ->
  collides (new_head_of g head) rest = false.
Proof.
  intros Hr. apply food_never_collides, reachable_invariant, Hr.
Qed.

(** C5, as the code has it: a due tick of a running game that moves the head
    onto the food cell returns as soon as the random source draws a cell off
    the new snake; whenever it returns, the snake is one segment longer (the
    new head, the old segments kept), the score is 10 higher and the food is
    on a board cell that is not on the new snake.  When the random source
    never draws such a cell, as it must when the new snake fills the board,
    the tick never returns. *)
Theorem eating_grows
    (fuel : nat) (rnd : nat -> Z) (now : Q) (g : SnakeGame)
    (head : pos) (rest : list pos) :
  due now g = true ->
  snake g = head :: rest ->
  collides (new_head_of g head) rest = false ->
  new_head_of g head = food g ->
  (forall g' : SnakeGame,
     update fuel rnd now g = Ok g' ->
     snake g' = food g :: snake g /\
     length (snake g') = S (length (snake g)) /\
     score g' = score g + 10 /\
     in_grid (food g') /\ ~ In (food g') (snake g') /\
     game_over g' = false) /\
  (forall k : nat,
     mem (draw rnd k) (food g :: snake g) = false ->
     exists g' : SnakeGame, update (S k) rnd now g = Ok g') /\
  ((forall k : nat, mem (draw rnd k) (food g :: snake g) = true) ->
   forall fuel' : nat, update fuel' rnd now g = Spin) /\
  ((forall p : pos, in_grid p -> In p (food g :: snake g)) ->
   forall (rnd' : nat -> Z) (fuel' : nat), update fuel' rnd' now g = Spin).
Proof.
  intros Hdue Hs Hc Hf. split; [|split; [|split]].
  - intros g' H. rewrite update_acts in H by exact Hdue.
    apply advance_transition in H. destruct H as (Htr & _).
    apply due_true in Hdue. destruct Hdue as [Hrun _].
    destruct Htr as
      [head' rest' Hs' Hc' _ _ _ _
      |head' rest' Hs' _ _ Hsn Hfg Hff Hsc Ho
      |head' rest' Hs' _ Hnf _ _ _ _];
      rewrite Hs in Hs'; injection Hs' as <- <-.
    + congruence.
    + rewrite Hf in Hsn.
      split; [exact Hsn|]. split; [rewrite Hsn; reflexivity|].
      split; [exact Hsc|]. split; [exact Hfg|]. split; [exact Hff|].
      congruence.
    + contradiction.
  - intros k Hk. rewrite update_acts by exact Hdue.
    apply (advance_returns_within rnd now g head rest k Hs).
    rewrite Hf. exact Hk.
  - intros Hall fuel'. rewrite update_acts by exact Hdue.
    apply (advance_eat_spins rnd now g head rest Hs Hc Hf).
    rewrite Hf. exact Hall.
  - intros Hfull rnd' fuel'. rewrite update_acts by exact Hdue.
    apply (advance_eat_spins rnd' now g head rest Hs Hc Hf).
    rewrite Hf. intros k. apply mem_In, Hfull, draw_in_grid.
Qed.

(** The end-to-end scenario of the specification, last step: head next to
    the food at (100, 100), one tick; the first draw is the cell just
    entered, the second is kept. *)
Lemma eating_grows_witness :
  due 1 before_food = true /\
  new_head_of before_food (120, 100) = food before_food /\
  mem (draw rnd_eat 1) (food before_food :: snake before_food) = false /\
  exists g' : SnakeGame,
    update 2 rnd_eat 1 before_food = Ok g' /\
    snake g' = [(100, 100); (120, 100)] /\
    length (snake g') = 2%nat /\ score g' = 10 /\
    ~ In (food g') (snake g').
Proof.
  split; [reflexivity|]. split; [reflexivity|]. split; [reflexivity|].
  pose proof (eating_grows 2 rnd_eat 1 before_food (120, 100) []
                eq_refl eq_refl eq_refl eq_refl) as (H1 & H2 & _).
  destruct (H2 1%nat eq_refl) as [g' Hg'].
  exists g'. split; [exact Hg'|].
  destruct (H1 g' Hg') as (Ha & Hb & Hc & _ & He & _).
  split; [exact Ha|]. split; [exact Hb|]. split; [exact Hc | exact He].
Defined.

(** The same tick, evaluated: the food moves to (200, 300). *)
Example eating_tick :
  update 2 rnd_eat 1 before_food =
  Ok (mkGame [(100, 100); (120, 100)] (-20, 0) (200, 300) 10 false 1 0).
Proof. reflexivity. Qed.

(** ** Invariants of the reachable states *)

(** C7: in every state reachable from [__init__] through [reset_game],
    [update] and the frame callback, running or over, every segment of the
    snake is inside the board with both coordinates multiples of the cell
    size; while the game runs no two segments share a cell. *)
Theorem reachable_snake_on_board (g : SnakeGame) :
  reachable g ->
  Forall in_grid (snake g) /\ (game_over g = false -> NoDup (snake g)).
Proof.
  intros H. apply reachable_invariant in H. split.
  - exact (inv_grid g H).
  - intros _. exact (inv_nodup g H).
Qed.

(** C9: in every reachable state the score is ten times the number of
    segments beyond the first, hence a non-negative multiple of 10. *)
Theorem reachable_score_length (g : SnakeGame) :
  reachable g ->
  score g = 10 * (Z.of_nat (length (snake g)) - 1) /\
  0 <= score g /\ score g mod 10 = 0.
Proof.
  intros H. apply reachable_invariant in H.
  pose proof (inv_score g H) as Hsc. pose proof (inv_nonempty g H) as Hne.
  split; [exact Hsc|]. rewrite Hsc.
  destruct (snake g) as [|a l]; [congruence|]. cbn [length]. split; [lia|].
  rewrite Z.mul_comm. apply Z.mod_mul. lia.
Qed.

(** ** A game played into a tight loop *)

Lemma loop_start_init : init 4 rnd_loop 0 0 0 = Ok loop_start.
Proof. reflexivity. Qed.

Lemma loop4_run :
  run 4 loop_frames loop_start =
  Ok (loop4, [(20, 0); (20, 0); (20, 0); (0, 20); (-20, 0)]).
Proof. vm_compute. reflexivity. Qed.

Lemma run_reachable (fuel : nat) (fs : list ((nat -> Z) * frame)) :
  forall (g g' : SnakeGame) (tr : list pos),
    reachable g -> run fuel fs g = Ok (g', tr) -> reachable g'.
Proof.
  induction fs as [|[rnd f] fs IH]; intros g g' tr Hr; cbn [run].
  - intros H. apply Ok_inj in H. congruence.
  - destruct (applied f g) as [a| |]; cbn [bind]; try discriminate.
    destruct (recv fuel rnd f g) as [g1| |] eqn:E; cbn [bind]; try discriminate.
    destruct (run fuel fs g1) as [[g2 tr2]| |] eqn:E2; cbn [bind]; try discriminate.
    intros H. apply Ok_inj in H. cbn [fst snd] in H.
    assert (g2 = g') by congruence. subst g2.
    apply (IH g1 g' tr2); [|exact E2].
    exact (reach_recv fuel rnd f g g1 Hr E).
Qed.

Lemma loop4_reachable : reachable loop4.
Proof.
  apply (run_reachable 4 loop_frames loop_start loop4
           [(20, 0); (20, 0); (20, 0); (0, 20); (-20, 0)]); [|exact loop4_run].
  exact (reach_init 4 rnd_loop 0%Q 0%Q 0%Q loop_start loop_start_init).
Qed.

Lemma reachable_snake_on_board_witness :
  reachable loop4 /\
  Forall in_grid (snake loop4) /\ NoDup (snake loop4).
Proof.
  split; [exact loop4_reachable|].
  destruct (reachable_snake_on_board loop4 loop4_reachable) as [H1 H2].
  split; [exact H1 | exact (H2 eq_refl)].
Defined.

Lemma reachable_score_length_witness :
  reachable loop4 /\ score loop4 = 10 * (Z.of_nat 4 - 1).
Proof.
  split; [exact loop4_reachable|].
  exact (proj1 (reachable_score_length loop4 loop4_reachable)).
Defined.

(** ** Collisions *)

Lemma update_crash (fuel : nat) (rnd : nat -> Z) (now : Q) (g : SnakeGame)
    (head : pos) (rest : list pos) :
  due now g = true -> snake g = head :: rest ->
  collides (new_head_of g head) rest = true ->
  update fuel rnd now g = Ok (set_game_over (set_last_update now g)).
Proof.
  intros Hdue Hs Hc. rewrite update_acts by exact Hdue.
  unfold advance. cbn [snake set_last_update]. rewrite Hs.
  change (new_head_of (set_last_update now g) head) with (new_head_of g head).
  rewrite Hc. reflexivity.
Qed.

Lemma In_collides (p : pos) (rest : list pos) :
  In p rest -> collides p rest = true.
Proof.
  intros H. unfold collides. apply mem_In in H. rewrite H.
  apply orb_true_r.
Qed.

Lemma last_In (rest : list pos) (d : pos) : rest <> [] -> In (last rest d) rest.
Proof.
  induction rest as [|a rest IH]; [congruence|]. intros _.
  destruct rest as [|b rest]; [left; reflexivity|].
  right. apply IH. discriminate.
Qed.

(** C1, as the code has it: a due tick of a running game whose new head is
    on any segment of [snake[1:]] ends the game and leaves snake, food and
    score as they were; the cell of the current tail is such a segment, also
    when no food is eaten and the tail would have left it in this tick.  A
    due tick whose new head is on the board, on no segment of [snake[1:]]
    and not on the food returns with the game running and the head on the
    new cell; when the new head is on the food, the tick does so as soon as
    the random source draws a cell off the new snake, and never returns when
    the random source never draws one. *)
Theorem body_collision_ends_game
    (fuel : nat) (rnd : nat -> Z) (now : Q) (g : SnakeGame)
    (head : pos) (rest : list pos) :
  due now g = true ->
  snake g = head :: rest ->
  (In (new_head_of g head) rest ->
   update fuel rnd now g = Ok (set_game_over (set_last_update now g))) /\
  (rest <> [] -> new_head_of g head = last rest head ->
   update fuel rnd now g = Ok (set_game_over (set_last_update now g))) /\
  (collides (new_head_of g head) rest = false ->
   (forall g' : SnakeGame,
      update fuel rnd now g = Ok g' ->
      game_over g' = false /\ hd head (snake g') = new_head_of g head) /\
   (new_head_of g head <> food g ->
    exists g' : SnakeGame,
      update fuel rnd now g = Ok g' /\
      game_over g' = false /\ hd head (snake g') = new_head_of g head) /\
   (forall k : nat,
      mem (draw rnd k) (new_head_of g head :: snake g) = false ->
      exists g' : SnakeGame,
        update (S k) rnd now g = Ok g' /\
        game_over g' = false /\ hd head (snake g') = new_head_of g head) /\
   (new_head_of g head = food g ->
    (forall k : nat, mem (draw rnd k) (new_head_of g head :: snake g) = true) ->
    forall fuel' : nat, update fuel' rnd now g = Spin)).
Proof.
  intros Hdue Hs.
  assert (Hpost : forall (fuel0 : nat) (g' : SnakeGame),
            collides (new_head_of g head) rest = false ->
            update fuel0 rnd now g = Ok g' ->
            game_over g' = false /\ hd head (snake g') = new_head_of g head).
  { intros fuel0 g' Hc H. rewrite update_acts in H by exact Hdue.
    apply advance_transition in H. destruct H as (Htr & _).
    pose proof (proj1 (proj1 (due_true now g) Hdue)) as Hrun.
    destruct Htr as
      [head' rest' Hs' Hc' _ _ _ _
      |head' rest' Hs' _ _ Hsn _ _ _ Ho
      |head' rest' Hs' _ _ Hsn _ _ Ho];
      rewrite Hs in Hs'; injection Hs' as <- <-.
    - congruence.
    - rewrite Hsn. split; [congruence | reflexivity].
    - rewrite Hsn, Hs. split; [congruence | reflexivity]. }
  split; [|split].
  - intros Hin. apply (update_crash fuel rnd now g head rest Hdue Hs).
    apply In_collides. exact Hin.
  - intros Hne Hlast. apply (update_crash fuel rnd now g head rest Hdue Hs).
    apply In_collides. rewrite Hlast. apply last_In. exact Hne.
  - intros Hc. split; [|split; [|split]].
    + intros g' H. exact (Hpost fuel g' Hc H).
    + intros Hnf.
      destruct (advance_no_food_returns fuel rnd now g head rest Hs (or_intror Hnf))
        as [g' Hg'].
      rewrite <- update_acts in Hg' by exact Hdue.
      exists g'. split; [exact Hg' | exact (Hpost fuel g' Hc Hg')].
    + intros k Hk.
      destruct (advance_returns_within rnd now g head rest k Hs Hk) as [g' Hg'].
      rewrite <- update_acts in Hg' by exact Hdue.
      exists g'. split; [exact Hg' | exact (Hpost (S k) g' Hc Hg')].
    + intros Hf Hall fuel'. rewrite update_acts by exact Hdue.
      exact (advance_eat_spins rnd now g head rest Hs Hc Hf Hall fuel').
Qed.

Lemma body_collision_ends_game_witness :
  due (350 # 100) loop4 = true /\
  new_head_of loop4 (360, 260) = last [(380, 260); (380, 240); (360, 240)] (360, 260) /\
  update 0 rnd_100 (350 # 100) loop4 =
    Ok (set_game_over (set_last_update (350 # 100) loop4)).
Proof.
  split; [reflexivity|]. split; [reflexivity|].
  apply (proj1 (proj2 (body_collision_ends_game 0 rnd_100 (350 # 100) loop4
                         (360, 260) [(380, 260); (380, 240); (360, 240)]
                         eq_refl eq_refl))).
  - discriminate.
  - reflexivity.
Defined.

(** With the pointer of [loop4] turned left instead, the same tick is a
    plain move onto (340, 260). *)
Example free_cell_keeps_running :
  update 0 rnd_100 (350 # 100)
    (mkGame [(360, 260); (380, 260); (380, 240); (360, 240)] (-20, 0) (0, 0) 30
            false (330 # 100) (337 # 100)) =
  Ok (mkGame [(340, 260); (360, 260); (380, 260); (380, 240)] (-20, 0) (0, 0) 30
             false (350 # 100) (337 # 100)).
Proof. reflexivity. Qed.

(** C1 fails as stated: [loop4] is reachable and running, its next due tick
    moves the head into the cell of the tail segment, no food is eaten (the
    food is elsewhere, so the tail would leave that cell), and the tick sets
    [game_over]. *)
Lemma tail_cell_collision_counterexample :
  reachable loop4 /\
  game_over loop4 = false /\
  new_head_of loop4 (360, 260) = last (snake loop4) (0, 0) /\
  new_head_of loop4 (360, 260) <> food loop4 /\
  exists g' : SnakeGame,
    update 0 rnd_100 (350 # 100) loop4 = Ok g' /\ game_over g' = true.
Proof.
  split; [exact loop4_reachable|]. split; [reflexivity|].
  split; [reflexivity|]. split; [discriminate|].
  eexists. split; reflexivity.
Qed.

(** ** Food placement on a full board *)

Lemma full_board_covers (p : pos) : in_grid p -> In p full_board.
Proof.
  destruct p as [x y]. unfold in_grid, width, height, grid_size; cbn [fst snd].
  intros (Hx & Hy & Hxm & Hym).
  apply Z.mod_divide in Hxm; [|lia]. apply Z.mod_divide in Hym; [|lia].
  destruct Hxm as [i Hi], Hym as [j Hj].
  unfold full_board. apply in_flat_map. exists (Z.to_nat j). split.
  - apply in_seq. lia.
  - unfold board_row. apply in_map_iff. exists i. split.
    + unfold grid_size. f_equal; lia.
    + assert (Hin : In i column_indices).
      { unfold column_indices. apply in_map_iff. exists (Z.to_nat i).
        split; [lia|]. apply in_seq. lia. }
      destruct (Nat.even (Z.to_nat j)); [exact Hin|].
      apply in_rev. rewrite rev_involutive. exact Hin.
Qed.

Lemma full_board_spins (rnd : nat -> Z) (fuel : nat) :
  generate_food fuel rnd 0 full_board = Spin.
Proof.
  apply (generate_food_spins rnd full_board) with (k0 := O).
  intros k. apply mem_In, full_board_covers, draw_in_grid.
Qed.

(** C2, as the code has it: the loop of [generate_food] returns the first
    drawn cell that is off the snake.  Whatever it returns is a cell of the
    board that the snake does not occupy; it returns as soon as the random
    source draws such a cell; it never reports an error; and on a snake that
    occupies every cell of the board no amount of fuel makes it return. *)
Theorem generate_food_outcome (rnd : nat -> Z) (sn : list pos) :
  (forall (fuel : nat) (p : pos),
     generate_food fuel rnd 0 sn = Ok p -> in_grid p /\ ~ In p sn) /\
  (forall k : nat,
     mem (draw rnd k) sn = false ->
     exists p : pos, generate_food (S k) rnd 0 sn = Ok p) /\
  (forall fuel : nat, generate_food fuel rnd 0 sn <> Raise) /\
  ((forall p : pos, in_grid p -> In p sn) ->
   forall fuel : nat, generate_food fuel rnd 0 sn = Spin).
Proof.
  split; [|split; [|split]].
  - intros fuel p. apply generate_food_free.
  - intros k Hk. apply (generate_food_returns rnd sn k 0 (S k)); auto.
  - intros fuel. apply generate_food_never_raises.
  - intros Hfull fuel.
    apply (generate_food_spins rnd sn) with (k0 := O).
    intros k. apply mem_In, Hfull, draw_in_grid.
Qed.

(** Rejection at work: the first draw (100, 100) is on the snake, the second
    draw (200, 300) is returned. *)
Example generate_food_rejects :
  generate_food 1 rnd_eat 0 [(100, 100)] = Spin /\
  generate_food 2 rnd_eat 0 [(100, 100)] = Ok (200, 300).
Proof. split; reflexivity. Qed.

(** C2 fails as stated: on the snake that fills the board, a well-formed
    snake of 768 distinct board cells, food placement neither returns a cell
    nor reports an error, whatever the random source and however long it
    runs. *)
Lemma generate_food_full_board_counterexample :
  length full_board = 768%nat /\
  forallb in_gridb full_board = true /\
  chained full_board = true /\
  distinct full_board = true /\
  forall (rnd : nat -> Z) (fuel : nat),
    generate_food fuel rnd 0 full_board = Spin.
Proof.
  split; [reflexivity|]. split; [vm_compute; reflexivity|].
  split; [vm_compute; reflexivity|]. split; [vm_compute; reflexivity|].
  exact full_board_spins.
Qed.

(** ** Reversal between two ticks *)

(** C3 fails on the code: from the freshly constructed game, the three
    frames above make two ticks act; the first moves the head right, the
    second moves it left, the exact negation, back onto the cell it came
    from.  The resolver compares the candidate with [self.direction], which
    the frame in between had already turned upwards. *)
Theorem applied_direction_reverses :
  init 1 rnd_100 0 0 0 = Ok start /\
  run 1 reversal_frames start = Ok (reversed, [(20, 0); (-20, 0)]) /\
  (-20, 0) = negate (20, 0).
Proof.
  split; [reflexivity|]. split; [vm_compute; reflexivity | reflexivity].
Qed.

(** ** More on the resolver *)

Lemma negate_involutive (d : pos) : negate (negate d) = d.
Proof.
  destruct d as [x y]. unfold negate; cbn [fst snd]. f_equal; lia.
Qed.

(** X1: whatever the pointer, the resolver never answers with the exact
    opposite of the current direction (for a current direction other than
    the null vector). *)
Theorem get_hand_direction_never_opposite
    (g : SnakeGame) (fx fy : Z) (d : pos) :
  direction g <> (0, 0) ->
  get_hand_direction g fx fy = Ok d ->
  d <> negate (direction g).
Proof.
  intros Hnz H Hd.
  destruct (get_hand_direction_spec g fx fy d H) as [E|[_ Hn]].
  - apply Hnz. rewrite E in Hd. destruct (direction g) as [x y].
    unfold negate in Hd; cbn [fst snd] in Hd.
    injection Hd as Hx Hy. f_equal; lia.
  - apply Hn. rewrite Hd. symmetry. apply negate_involutive.
Qed.

(** Heading right with the pointer far to the left: the answer is still
    right. *)
Lemma get_hand_direction_never_opposite_witness :
  direction start <> (0, 0) /\
  get_hand_direction start 100 240 = Ok (20, 0) /\
  (20, 0) <> negate (direction start).
Proof.
  split; [discriminate|]. split; [reflexivity|].
  apply (get_hand_direction_never_opposite start 100 240 (20, 0)).
  - discriminate.
  - reflexivity.
Defined.

Lemma step_sgn (v : Z) :
  v <> 0 ->
  (if v >? 0 then (grid_size, 0) else (- grid_size, 0)) = (grid_size * Z.sgn v, 0) /\
  (if v >? 0 then (0, grid_size) else (0, - grid_size)) = (0, grid_size * Z.sgn v).
Proof.
  intros Hv. unfold grid_size. destruct (Z.gtb_spec v 0) as [H|H].
  - rewrite Z.sgn_pos by lia. split; reflexivity.
  - rewrite Z.sgn_neg by lia. split; reflexivity.
Qed.

(** X2: when the resolver changes the direction, the new direction lies on
    the axis of the strictly larger displacement and points from the head
    towards the pointer; and a pointer whose larger displacement exceeds the
    dead zone does change the direction to that heading, unless that heading
    is the opposite of the current one. *)
Theorem get_hand_direction_follows_pointer
    (g : SnakeGame) (fx fy hx hy : Z) (rest : list pos) :
  snake g = (hx, hy) :: rest ->
  (forall d : pos,
     get_hand_direction g fx fy = Ok d -> d <> direction g ->
     (Z.abs (fy - hy) < Z.abs (fx - hx) /\ d = (grid_size * Z.sgn (fx - hx), 0)) \/
     (Z.abs (fx - hx) < Z.abs (fy - hy) /\ d = (0, grid_size * Z.sgn (fy - hy)))) /\
  (Z.abs (fy - hy) < Z.abs (fx - hx) -> dead_zone < Z.abs (fx - hx) ->
   direction g <> (- (grid_size * Z.sgn (fx - hx)), 0) ->
   get_hand_direction g fx fy = Ok (grid_size * Z.sgn (fx - hx), 0)) /\
  (Z.abs (fx - hx) < Z.abs (fy - hy) -> dead_zone < Z.abs (fy - hy) ->
   direction g <> (0, - (grid_size * Z.sgn (fy - hy))) ->
   get_hand_direction g fx fy = Ok (0, grid_size * Z.sgn (fy - hy))).
Proof.
  intros Hs. unfold get_hand_direction. rewrite Hs. cbv beta iota zeta.
  set (dx := fx - hx). set (dy := fy - hy). unfold dead_zone.
  destruct ((Z.abs dx >? Z.abs dy) && (Z.abs dx >? 40)) eqn:E1.
  - apply andb_true_iff in E1. destruct E1 as [E1 E1'].
    apply Z.gtb_lt in E1, E1'.
    assert (Hnz : dx <> 0) by lia.
    match goal with
    | |- context [no_reverse g ?c] =>
        assert (Hx : c = (grid_size * Z.sgn dx, 0))
          by exact (proj1 (step_sgn dx Hnz));
        rewrite Hx
    end.
    split; [|split].
    + intros d H Hne. apply Ok_inj in H. left. split; [exact E1|].
      destruct (no_reverse_spec g (grid_size * Z.sgn dx, 0)) as [E|[E _]];
        congruence.
    + intros _ _ Hdir. f_equal. unfold no_reverse. cbn [fst snd].
      destruct (pos_eqb _ (direction g)) eqn:E; [|reflexivity].
      apply pos_eqb_eq in E. exfalso. apply Hdir. rewrite <- E.
      f_equal; lia.
    + intros H. lia.
  - destruct ((Z.abs dy >? Z.abs dx) && (Z.abs dy >? 40)) eqn:E2.
    + apply andb_true_iff in E2. destruct E2 as [E2 E2'].
      apply Z.gtb_lt in E2, E2'.
      assert (Hnz : dy <> 0) by lia.
      match goal with
      | |- context [no_reverse g ?c] =>
          assert (Hy : c = (0, grid_size * Z.sgn dy))
            by exact (proj2 (step_sgn dy Hnz));
          rewrite Hy
      end.
      split; [|split].
      * intros d H Hne. apply Ok_inj in H. right. split; [exact E2|].
        destruct (no_reverse_spec g (0, grid_size * Z.sgn dy)) as [E|[E _]];
          congruence.
      * intros H. lia.
      * intros _ _ Hdir. f_equal. unfold no_reverse. cbn [fst snd].
        destruct (pos_eqb _ (direction g)) eqn:E; [|reflexivity].
        apply pos_eqb_eq in E. exfalso. apply Hdir. rewrite <- E.
        f_equal; lia.
    + apply andb_false_iff in E1, E2.
      rewrite !Z.gtb_ltb, !Z.ltb_ge in E1, E2.
      split; [|split].
      * intros d H Hne. apply Ok_inj in H. congruence.
      * intros H1 H2 _. lia.
      * intros H1 H2 _. lia.
Qed.

(** A displacement of (80, 10) from the head of [loop4], which heads up:
    the answer is right. *)
Lemma get_hand_direction_follows_pointer_witness :
  snake loop4 = (360, 260) :: [(380, 260); (380, 240); (360, 240)] /\
  get_hand_direction loop4 440 270 = Ok (grid_size * Z.sgn (440 - 360), 0).
Proof.
  split; [reflexivity|].
  apply (proj1 (proj2 (get_hand_direction_follows_pointer loop4 440 270 360 260
                         [(380, 260); (380, 240); (360, 240)] eq_refl))).
  - simpl; lia.
  - unfold dead_zone; simpl; lia.
  - discriminate.
Defined.

(** ** No IndexError *)

Lemma get_hand_direction_returns (g : SnakeGame) (fx fy : Z) :
  snake g <> [] -> exists d : pos, get_hand_direction g fx fy = Ok d.
Proof.
  intros Hne. unfold get_hand_direction.
  destruct (snake g) as [|[hx hy] rest]; [congruence|]. cbv beta iota zeta.
  destruct (_ && _); [eauto|]. destruct (_ && _); eauto.
Qed.

Lemma steer_returns (h : hand) (g : SnakeGame) :
  snake g <> [] -> exists g' : SnakeGame, steer h g = Ok g'.
Proof.
  intros Hne. unfold steer.
  destruct (Qltb _ _); [|eauto].
  destruct (get_hand_direction_returns g (finger_x h) (finger_y h) Hne) as [d Hd].
  rewrite Hd. cbn [bind]. destruct (negb _); eauto.
Qed.

Lemma steer_all_returns (hs : list hand) :
  forall g : SnakeGame,
    snake g <> [] -> exists g' : SnakeGame, steer_all hs g = Ok g'.
Proof.
  induction hs as [|h hs IH]; intros g Hne; cbn [steer_all]; [eauto|].
  destruct (steer_returns h g Hne) as [g1 Hg1]. rewrite Hg1. cbn [bind].
  apply IH. apply steer_spec in Hg1. destruct Hg1 as (Hs & _). congruence.
Qed.

Lemma recv_steer_returns (f : frame) (g : SnakeGame) :
  snake g <> [] ->
  exists g' : SnakeGame, recv_steer f g = Ok g' /\ snake g' = snake g.
Proof.
  intros Hne. unfold recv_steer. destruct (negb (game_over g)) eqn:E.
  - destruct (steer_all_returns (hands f) g Hne) as [g' Hg']. exists g'.
    split; [exact Hg'|]. apply steer_all_spec in Hg'. tauto.
  - eauto.
Qed.

Lemma update_no_raise (fuel : nat) (rnd : nat -> Z) (now : Q) (g : SnakeGame) :
  snake g <> [] -> update fuel rnd now g <> Raise.
Proof.
  intros Hne. unfold update.
  destruct (game_over g); [discriminate|].
  destruct (Qltb _ _); [discriminate|].
  unfold advance. cbn [snake set_last_update].
  destruct (snake g) as [|head rest]; [congruence|].
  destruct (collides _ rest); [discriminate|].
  destruct (pos_eqb _ _); [|discriminate].
  destruct (generate_food fuel rnd 0 _) as [p| |] eqn:E; cbn [bind];
    try discriminate.
  exfalso. exact (generate_food_never_raises _ _ _ _ E).
Qed.

(** X3: in a reachable state the snake is never empty, so the indexing
    [self.snake[0]] never fails: [get_hand_direction] always returns a
    direction, and neither [update] nor the frame callback raises. *)
Theorem reachable_never_raises (g : SnakeGame) :
  reachable g ->
  snake g <> [] /\
  (forall fx fy : Z, exists d : pos, get_hand_direction g fx fy = Ok d) /\
  (forall (fuel : nat) (rnd : nat -> Z) (now : Q),
     update fuel rnd now g <> Raise) /\
  (forall (fuel : nat) (rnd : nat -> Z) (f : frame),
     recv fuel rnd f g <> Raise).
Proof.
  intros Hr. pose proof (inv_nonempty g (reachable_invariant g Hr)) as Hne.
  split; [exact Hne|]. split; [|split].
  - intros fx fy. apply get_hand_direction_returns. exact Hne.
  - intros fuel rnd now. apply update_no_raise. exact Hne.
  - intros fuel rnd f. unfold recv.
    destruct (recv_steer_returns f g Hne) as (g1 & Hg1 & Hs1).
    rewrite Hg1. cbn [bind]. apply update_no_raise. congruence.
Qed.

Lemma reachable_never_raises_witness :
  reachable loop4 /\
  recv 0 rnd_100 (mkFrame [mkHand 4 0 260] 4) loop4 <> Raise.
Proof.
  split; [exact loop4_reachable|].
  exact (proj2 (proj2 (proj2 (reachable_never_raises loop4 loop4_reachable)))
           0%nat rnd_100 (mkFrame [mkHand 4 0 260] 4)).
Defined.

(** The empty snake, which no run produces, does raise. *)
Example empty_snake_raises :
  get_hand_direction (mkGame [] (20, 0) (0, 0) 0 false 0 0) 0 0 = Raise /\
  update 0 rnd_100 1 (mkGame [] (20, 0) (0, 0) 0 false 0 0) = Raise.
Proof. split; reflexivity. Qed.

(** ** Length and score along ticks *)

(** X4: a call of [update] never shortens the snake and lengthens it by at
    most one segment, never lowers the score and raises it by at most 10,
    and never clears [game_over]. *)
Theorem update_never_shrinks
    (fuel : nat) (rnd : nat -> Z) (now : Q) (g g' : SnakeGame) :
  update fuel rnd now g = Ok g' ->
  (length (snake g) <= length (snake g') <= S (length (snake g)))%nat /\
  score g <= score g' <= score g + 10 /\
  (game_over g = true -> game_over g' = true).
Proof.
  intros H. destruct (due now g) eqn:Hdue.
  - rewrite update_acts in H by exact Hdue.
    apply advance_transition in H. destruct H as (Htr & _).
    apply due_true in Hdue. destruct Hdue as [Hrun _].
    split; [|split; [|congruence]].
    + destruct Htr as
        [head rest Hs _ Hs' _ _ _
        |head rest Hs _ _ Hs' _ _ _ _
        |head rest Hs _ _ Hs' _ _ _]; rewrite Hs'.
      * lia.
      * cbn [length]. lia.
      * rewrite Hs, removelast_cons_length. lia.
    + destruct Htr as
        [head rest _ _ _ _ Hsc _
        |head rest _ _ _ _ _ _ Hsc _
        |head rest _ _ _ _ _ Hsc _]; lia.
  - rewrite update_skips in H by exact Hdue. apply Ok_inj in H. subst g'.
    split; [lia|]. split; [lia | auto].
Qed.

Lemma update_never_shrinks_witness :
  update 2 rnd_eat 1 before_food =
    Ok (mkGame [(100, 100); (120, 100)] (-20, 0) (200, 300) 10 false 1 0) /\
  (length (snake before_food) <= 2 <= S (length (snake before_food)))%nat.
Proof.
  split; [reflexivity|].
  exact (proj1 (update_never_shrinks 2 rnd_eat 1 before_food _ eq_refl)).
Defined.

(** ** The shape of the snake *)

Lemma chained_cons (a b : pos) (l : list pos) :
  chained (a :: b :: l) =
  (Z.abs (fst a - fst b) + Z.abs (snd a - snd b) =? grid_size) && chained (b :: l).
Proof. reflexivity. Qed.

Lemma chained_removelast (l : list pos) :
  chained l = true -> chained (removelast l) = true.
Proof.
  induction l as [|a l IH]; [auto|].
  destruct l as [|b l]; [auto|]. intros H.
  rewrite chained_cons in H. apply andb_true_iff in H. destruct H as [H1 H2].
  change (removelast (a :: b :: l)) with (a :: removelast (b :: l)).
  destruct l as [|c l]; [reflexivity|].
  change (removelast (b :: c :: l)) with (b :: removelast (c :: l)) in *.
  rewrite chained_cons, H1. apply IH. exact H2.
Qed.

Lemma new_head_one_step (g : SnakeGame) (head : pos) :
  cardinal (direction g) ->
  Z.abs (fst (new_head_of g head) - fst head) +
  Z.abs (snd (new_head_of g head) - snd head) = grid_size.
Proof.
  unfold new_head_of, cardinal, grid_size.
  intros [ -> | [ -> | [ -> | -> ] ] ]; cbn [fst snd]; lia.
Qed.

Lemma update_chained (fuel : nat) (rnd : nat -> Z) (now : Q) (g g' : SnakeGame) :
  cardinal (direction g) -> chained (snake g) = true ->
  update fuel rnd now g = Ok g' -> chained (snake g') = true.
Proof.
  intros Hd Hch H. destruct (due now g) eqn:Hdue.
  - rewrite update_acts in H by exact Hdue.
    apply advance_transition in H. destruct H as (Htr & _).
    assert (Hnew : forall head rest, snake g = head :: rest ->
              chained (new_head_of g head :: snake g) = true).
    { intros head rest Hs. rewrite Hs, chained_cons, <- Hs, Hch.
      rewrite (new_head_one_step g head Hd), Z.eqb_refl. reflexivity. }
    destruct Htr as
      [head rest Hs _ Hs' _ _ _
      |head rest Hs _ _ Hs' _ _ _ _
      |head rest Hs _ _ Hs' _ _ _]; rewrite Hs'.
    + exact Hch.
    + exact (Hnew head rest Hs).
    + apply chained_removelast. exact (Hnew head rest Hs).
  - rewrite update_skips in H by exact Hdue. apply Ok_inj in H. subst g'.
    exact Hch.
Qed.

(** X5: in every reachable state consecutive segments of the snake are
    neighbours on the grid: they differ by one cell size on exactly one
    axis. *)
Theorem reachable_chained (g : SnakeGame) :
  reachable g -> chained (snake g) = true.
Proof.
  induction 1 as
    [fuel rnd t0 t1 t2 g H
    |fuel rnd now g g' _ _ H
    |fuel rnd f g g' Hr IH H
    |fuel rnd now g g' Hr IH H].
  - unfold init in H. cbv zeta in H.
    destruct (reset_game fuel rnd t0 _) as [g0| |] eqn:E; cbn [bind] in H;
      try discriminate.
    apply Ok_inj in H. subst g. cbn [snake].
    apply reset_game_spec in E. destruct E as (-> & _). reflexivity.
  - apply reset_game_spec in H. destruct H as (-> & _). reflexivity.
  - unfold recv in H.
    destruct (recv_steer f g) as [g1| |] eqn:E; cbn [bind] in H;
      try discriminate.
    pose proof (recv_steer_invariant f g g1 (reachable_invariant g Hr) E) as Hinv.
    apply recv_steer_spec in E. destruct E as (Hs & _).
    apply (update_chained fuel rnd (frame_time f) g1 g'); auto.
    + exact (inv_dir g1 Hinv).
    + rewrite Hs. exact IH.
  - apply (update_chained fuel rnd now g g'); auto.
    exact (inv_dir g (reachable_invariant g Hr)).
Qed.

Lemma reachable_chained_witness :
  reachable loop4 /\ chained (snake loop4) = true.
Proof.
  split; [exact loop4_reachable | exact (reachable_chained loop4 loop4_reachable)].
Defined.

(** X6: in every reachable state the food lies on a cell of the board,
    aligned to the grid, and on no segment of the snake. *)
Theorem reachable_food_off_snake (g : SnakeGame) :
  reachable g -> in_grid (food g) /\ ~ In (food g) (snake g).
Proof.
  intros Hr. apply reachable_invariant in Hr.
  split; [exact (inv_food_grid g Hr) | exact (inv_food_free g Hr)].
Qed.

Lemma reachable_food_off_snake_witness :
  reachable loop4 /\ ~ In (food loop4) (snake loop4).
Proof.
  split; [exact loop4_reachable|].
  exact (proj2 (reachable_food_off_snake loop4 loop4_reachable)).
Defined.

(** X7: in every reachable state [self.direction] is one of the four
    headings of one cell size, so a tick that moves puts the new head
    exactly one cell from the old one. *)
Theorem reachable_direction_cardinal (g : SnakeGame) :
  reachable g ->
  cardinal (direction g) /\
  forall head : pos,
    Z.abs (fst (new_head_of g head) - fst head) +
    Z.abs (snd (new_head_of g head) - snd head) = grid_size.
Proof.
  intros Hr. apply reachable_invariant in Hr.
  pose proof (inv_dir g Hr) as Hd. split; [exact Hd|].
  intros head. apply new_head_one_step. exact Hd.
Qed.

Lemma reachable_direction_cardinal_witness :
  reachable loop4 /\ cardinal (direction loop4).
Proof.
  split; [exact loop4_reachable|].
  exact (proj1 (reachable_direction_cardinal loop4 loop4_reachable)).
Defined.

Lemma invariant_length_bounded (g : SnakeGame) :
  invariant g -> (length (snake g) <= 768)%nat.
Proof.
  intros Hinv.
  assert (Hlen : (length (snake g) <= length full_board)%nat).
  { apply NoDup_incl_length; [exact (inv_nodup g Hinv)|].
    intros p Hp. apply full_board_covers.
    pose proof (inv_grid g Hinv) as Hg. rewrite Forall_forall in Hg.
    apply Hg. exact Hp. }
  exact Hlen.
Qed.

Lemma invariant_score_range (g : SnakeGame) :
  invariant g -> 0 <= score g <= 7670 /\ score g mod 10 = 0.
Proof.
  intros Hinv. pose proof (invariant_length_bounded g Hinv) as Hlen.
  pose proof (inv_nonempty g Hinv) as Hne. rewrite (inv_score g Hinv).
  destruct (snake g) as [|a l]; [congruence|]. cbn [length] in *.
  split; [lia|]. rewrite Z.mul_comm. apply Z.mod_mul. lia.
Qed.

(** X13: a reachable snake has at most 768 segments, one per cell of the
    board, and the score is at most 7670. *)
Theorem reachable_length_bounded (g : SnakeGame) :
  reachable g ->
  (length (snake g) <= 768)%nat /\ score g <= 7670.
Proof.
  intros Hr. apply reachable_invariant in Hr.
  split; [exact (invariant_length_bounded g Hr)|].
  apply invariant_score_range. exact Hr.
Qed.

Lemma reachable_length_bounded_witness :
  reachable loop4 /\ (length (snake loop4) <= 768)%nat.
Proof.
  split; [exact loop4_reachable|].
  exact (proj1 (reachable_length_bounded loop4 loop4_reachable)).
Defined.

(** ** Walls and plain moves *)

(** X8: a due tick of a running game whose new head is outside the board
    ends the game: [game_over] is set, the clock is stamped, and snake, food,
    score and direction stay as they were. *)
Theorem wall_collision_ends_game
    (fuel : nat) (rnd : nat -> Z) (now : Q) (g : SnakeGame)
    (head : pos) (rest : list pos) :
  due now g = true ->
  snake g = head :: rest ->
  ~ (0 <= fst (new_head_of g head) < width /\
     0 <= snd (new_head_of g head) < height) ->
  update fuel rnd now g = Ok (set_game_over (set_last_update now g)).
Proof.
  intros Hdue Hs Hout. apply (update_crash fuel rnd now g head rest Hdue Hs).
  destruct (collides (new_head_of g head) rest) eqn:Hc; [reflexivity|].
  apply collides_false in Hc. exfalso. apply Hout. tauto.
Qed.

Lemma wall_collision_ends_game_witness :
  due 1 at_right_wall = true /\
  new_head_of at_right_wall (620, 100) = (640, 100) /\
  update 0 rnd_100 1 at_right_wall =
    Ok (mkGame [(620, 100); (600, 100)] (20, 0) (100, 100) 10 true 1 0).
Proof.
  split; [reflexivity|]. split; [reflexivity|].
  apply (wall_collision_ends_game 0 rnd_100 1 at_right_wall (620, 100) [(600, 100)]).
  - reflexivity.
  - reflexivity.
  - unfold width. simpl. lia.
Defined.

Lemma last_not_in_removelast (l : list pos) (d : pos) :
  NoDup l -> l <> [] -> ~ In (last l d) (removelast l).
Proof.
  induction l as [|a l IH]; [congruence|]. intros Hnd _.
  destruct l as [|b l]; [simpl; tauto|].
  inversion Hnd as [|? ? Hn Hd]; subst.
  change (removelast (a :: b :: l)) with (a :: removelast (b :: l)).
  change (last (a :: b :: l) d) with (last (b :: l) d).
  intros [Hin|Hin].
  - apply Hn. rewrite Hin. apply last_In. discriminate.
  - revert Hin. apply IH; [exact Hd | discriminate].
Qed.

(** X9: in a reachable running state, a due tick that neither collides nor
    eats returns for every fuel; the new snake is the new head followed by
    the old snake without its last segment, so the length is kept and the
    cell of the old tail is left; food and score are untouched. *)
Theorem plain_move_shifts_body
    (fuel : nat) (rnd : nat -> Z) (now : Q) (g : SnakeGame)
    (head : pos) (rest : list pos) :
  reachable g ->
  due now g = true ->
  snake g = head :: rest ->
  collides (new_head_of g head) rest = false ->
  new_head_of g head <> food g ->
  exists g' : SnakeGame,
    update fuel rnd now g = Ok g' /\
    snake g' = new_head_of g head :: removelast (snake g) /\
    length (snake g') = length (snake g) /\
    ~ In (last (snake g) head) (snake g') /\
    food g' = food g /\ score g' = score g /\ game_over g' = false.
Proof.
  intros Hr Hdue Hs Hc Hnf.
  pose proof (reachable_invariant g Hr) as Hinv.
  destruct (advance_no_food_returns fuel rnd now g head rest Hs (or_intror Hnf))
    as [g' Hg'].
  exists g'. rewrite update_acts by exact Hdue. split; [exact Hg'|].
  apply advance_transition in Hg'. destruct Hg' as (Htr & _).
  apply due_true in Hdue. destruct Hdue as [Hrun _].
  destruct Htr as
    [head' rest' Hs' Hc' _ _ _ _
    |head' rest' Hs' _ Hf _ _ _ _ _
    |head' rest' Hs' _ _ Hsn Hfd Hsc Ho];
    rewrite Hs in Hs'; injection Hs' as <- <-.
  - congruence.
  - contradiction.
  - assert (Hsn' : snake g' = new_head_of g head :: removelast (snake g)).
    { rewrite Hsn, Hs. reflexivity. }
    split; [exact Hsn'|]. split; [|split; [|split; [|split]]]; try congruence.
    + rewrite Hsn, Hs. apply removelast_cons_length.
    + rewrite Hsn'. intros [Hin|Hin].
      * apply collides_false in Hc. destruct Hc as (_ & _ & Hnr).
        rewrite Hs in Hin. destruct rest as [|b rest'].
        -- cbn [last] in Hin.
           exact (new_head_moves g head (inv_dir g Hinv) Hin).
        -- apply Hnr. rewrite Hin.
           change (last (head :: b :: rest') head) with (last (b :: rest') head).
           apply last_In. discriminate.
      * revert Hin. apply last_not_in_removelast.
        -- exact (inv_nodup g Hinv).
        -- exact (inv_nonempty g Hinv).
Qed.

(** The first tick of a fresh game: the head moves on, the cell (320, 240)
    is left. *)
Lemma plain_move_shifts_body_witness :
  exists g' : SnakeGame,
    update 0 rnd_100 4 start = Ok g' /\
    snake g' = [(340, 240)] /\ ~ In (320, 240) (snake g').
Proof.
  destruct (plain_move_shifts_body 0 rnd_100 4 start (320, 240) []
              start_reachable eq_refl eq_refl eq_refl)
    as (g' & Hu & Hs & _ & Hfree & _).
  - discriminate.
  - exists g'. split; [exact Hu|]. split; [exact Hs | exact Hfree].
Defined.

(** ** Steering in the frame callback *)

(** X10: the loop body of [recv] changes the direction only when more than
    [direction_cooldown] has passed since the last change; it then stamps
    [last_direction_change] with its own clock reading, and every hand seen
    up to [direction_cooldown] after that reading is ignored. *)
Theorem accepted_change_starts_cooldown (h : hand) (g g' : SnakeGame) :
  steer h g = Ok g' ->
  direction g' <> direction g ->
  (direction_cooldown < hand_time h - last_direction_change g)%Q /\
  last_direction_change g' = hand_time h /\
  forall h' : hand,
    (hand_time h' - hand_time h <= direction_cooldown)%Q ->
    steer h' g' = Ok g'.
Proof.
  intros H Hne. apply steer_spec in H.
  destruct H as (_ & _ & _ & _ & _ & [->|(_ & _ & _ & Hl & Ht)]);
    [congruence|].
  split; [exact Ht|]. split; [exact Hl|].
  intros h' Hh'. apply steer_throttled. rewrite Hl. exact Hh'.
Qed.

(** A turn upwards at 1.00 s; a pointer to the left at 1.15 s is ignored. *)
Lemma accepted_change_starts_cooldown_witness :
  exists g' : SnakeGame,
    steer (mkHand 1 320 100) start = Ok g' /\
    direction g' = (0, -20) /\
    get_hand_direction g' 100 240 = Ok (-20, 0) /\
    steer (mkHand (115 # 100) 100 240) g' = Ok g'.
Proof.
  eexists. split; [reflexivity|]. split; [reflexivity|].
  split; [reflexivity|].
  destruct (accepted_change_starts_cooldown (mkHand 1 320 100) start _ eq_refl)
    as (_ & _ & H).
  - discriminate.
  - apply H. vm_compute. discriminate.
Defined.

(** X11: a frame whose tick is not due (the game is over, or less than
    [game_speed] has passed since the last acted tick) leaves snake, food,
    score, [game_over] and [last_update] untouched, whatever hands it
    carries: it can turn the snake but not move it. *)
Theorem frame_between_ticks
    (fuel : nat) (rnd : nat -> Z) (f : frame) (g g' : SnakeGame) :
  recv fuel rnd f g = Ok g' ->
  due (frame_time f) g = false ->
  snake g' = snake g /\ food g' = food g /\ score g' = score g /\
  game_over g' = game_over g /\ last_update g' = last_update g.
Proof.
  unfold recv. intros H Hdue.
  destruct (recv_steer f g) as [g1| |] eqn:E; cbn [bind] in H; try discriminate.
  apply recv_steer_spec in E. destruct E as (Hs & Hf & Hsc & Ho & Hl & _).
  assert (Hdue1 : due (frame_time f) g1 = false).
  { unfold due in *. rewrite Ho, Hl. exact Hdue. }
  rewrite update_skips in H by exact Hdue1. apply Ok_inj in H. subst g'.
  repeat split; assumption.
Qed.

Lemma frame_between_ticks_witness :
  exists g' : SnakeGame,
    recv 0 rnd_100 (mkFrame [mkHand (340 # 100) 100 260] (340 # 100)) loop4 = Ok g' /\
    due (340 # 100) loop4 = false /\
    snake g' = snake loop4.
Proof.
  eexists. split; [reflexivity|]. split; [reflexivity|].
  exact (proj1 (frame_between_ticks 0 rnd_100
                  (mkFrame [mkHand (340 # 100) 100 260] (340 # 100)) loop4 _
                  eq_refl eq_refl)).
Defined.

(** ** Where the food can land *)

Lemma draw_rnd_at (p : pos) (k : nat) : in_grid p -> draw (rnd_at p) k = p.
Proof.
  destruct p as [x y]. unfold in_grid, draw, rnd_at; cbn [fst snd].
  intros (Hx & Hy & Hxm & Hym).
  replace (Nat.even (2 * k)) with true
    by (symmetry; apply Nat.even_spec; exists k; reflexivity).
  replace (Nat.even (S (2 * k))) with false
    by (symmetry; rewrite Nat.even_succ, <- Nat.negb_even;
        apply negb_false_iff, Nat.even_spec; exists k; reflexivity).
  change ((width - grid_size) / grid_size) with 31.
  change ((height - grid_size) / grid_size) with 23.
  unfold width, height, grid_size in *.
  apply Z.mod_divide in Hxm; [|lia]. apply Z.mod_divide in Hym; [|lia].
  destruct Hxm as [i ->], Hym as [j ->].
  rewrite !Z.div_mul by lia.
  unfold randint. rewrite !Z.mod_small by lia. f_equal; lia.
Qed.

(** X12: every cell of the board that is off the snake is a possible
    outcome of [generate_food]: some sequence of random integers makes the
    very first iteration of the loop return it. *)
Theorem generate_food_any_free_cell (sn : list pos) (p : pos) :
  in_grid p -> ~ In p sn ->
  exists rnd : nat -> Z, generate_food 1 rnd 0 sn = Ok p.
Proof.
  intros Hp Hfree. exists (rnd_at p).
  change 0%nat with (2 * 0)%nat. rewrite generate_food_unfold.
  rewrite (draw_rnd_at p 0 Hp).
  apply mem_not_In in Hfree. rewrite Hfree. reflexivity.
Qed.

Lemma generate_food_any_free_cell_witness :
  in_grid (620, 460) /\ ~ In (620, 460) (snake loop4) /\
  exists rnd : nat -> Z, generate_food 1 rnd 0 (snake loop4) = Ok (620, 460).
Proof.
  assert (Hg : in_grid (620, 460)) by (apply in_gridb_iff; reflexivity).
  assert (Hf : ~ In (620, 460) (snake loop4))
    by (apply mem_not_In; reflexivity).
  split; [exact Hg|]. split; [exact Hf|].
  exact (generate_food_any_free_cell (snake loop4) (620, 460) Hg Hf).
Defined.

(** ** The high score *)

Lemma session_reachable_game (s : session) :
  session_reachable s -> reachable (game s).
Proof.
  induction 1 as
    [fuel rnd t0 t1 t2 s H
    |fuel rnd now s s' _ IH H
    |fuel rnd f s s' _ IH H].
  - unfold new_session in H.
    destruct (init fuel rnd t0 t1 t2) as [g| |] eqn:E; cbn [bind] in H;
      try discriminate.
    apply Ok_inj in H. subst s. exact (reach_init _ _ _ _ _ _ E).
  - unfold restart in H. cbv zeta in H.
    destruct (reset_game fuel rnd now (game s)) as [g| |] eqn:E;
      cbn [bind] in H; try discriminate.
    apply Ok_inj in H. subst s'. exact (reach_reset _ _ _ _ _ IH E).
  - unfold on_frame in H.
    destruct (recv fuel rnd f (game s)) as [g| |] eqn:E; cbn [bind] in H;
      try discriminate.
    apply Ok_inj in H. subst s'. exact (reach_recv _ _ _ _ _ IH E).
Qed.

(** X14: in every session the high score is a multiple of 10 between 0 and
    7670.  Frames never change it; the restart button sets it to the larger
    of the old high score and the score of the game being abandoned, and
    starts the new game at score 0. *)
Theorem session_high_score (s : session) :
  session_reachable s ->
  (0 <= high_score s <= 7670 /\ high_score s mod 10 = 0) /\
  (forall (fuel : nat) (rnd : nat -> Z) (f : frame) (s' : session),
     on_frame fuel rnd f s = Ok s' -> high_score s' = high_score s) /\
  (forall (fuel : nat) (rnd : nat -> Z) (now : Q) (s' : session),
     restart fuel rnd now s = Ok s' ->
     high_score s' = Z.max (high_score s) (score (game s)) /\
     score (game s') = 0).
Proof.
  intros Hs. split; [|split].
  - induction Hs as
      [fuel rnd t0 t1 t2 s H
      |fuel rnd now s s' Hs IH H
      |fuel rnd f s s' _ IH H].
    + unfold new_session in H.
      destruct (init fuel rnd t0 t1 t2) as [g| |]; cbn [bind] in H;
        try discriminate.
      apply Ok_inj in H. subst s. cbn [high_score]. split; [lia | reflexivity].
    + pose proof (invariant_score_range (game s)
                    (reachable_invariant _ (session_reachable_game s Hs))) as Hsc.
      unfold restart in H. cbv zeta in H.
      destruct (reset_game fuel rnd now (game s)) as [g| |]; cbn [bind] in H;
        try discriminate.
      apply Ok_inj in H. subst s'. cbn [high_score].
      destruct (score (game s) >? high_score s); tauto.
    + unfold on_frame in H.
      destruct (recv fuel rnd f (game s)) as [g| |]; cbn [bind] in H;
        try discriminate.
      apply Ok_inj in H. subst s'. exact IH.
  - intros fuel rnd f s' H. unfold on_frame in H.
    destruct (recv fuel rnd f (game s)) as [g| |]; cbn [bind] in H;
      try discriminate.
    apply Ok_inj in H. subst s'. reflexivity.
  - intros fuel rnd now s' H. unfold restart in H. cbv zeta in H.
    destruct (reset_game fuel rnd now (game s)) as [g| |] eqn:E;
      cbn [bind] in H; try discriminate.
    apply Ok_inj in H. subst s'. cbn [high_score game].
    apply reset_game_spec in E. destruct E as (_ & _ & Hsc & _).
    split; [|exact Hsc].
    destruct (Z.gtb_spec (score (game s)) (high_score s)); lia.
Qed.

(** A session whose game reached [loop4] (score 30), restarted at 5 s. *)
Lemma session_high_score_witness :
  session_reachable (mkSession loop4 0) /\
  exists s' : session,
    restart 1 rnd_100 5 (mkSession loop4 0) = Ok s' /\
    high_score s' = 30 /\ score (game s') = 0.
Proof.
  assert (Hs : forall (fs : list ((nat -> Z) * frame)) (g g' : SnakeGame) (tr : list pos),
             session_reachable (mkSession g 0) ->
             run 4 fs g = Ok (g', tr) -> session_reachable (mkSession g' 0)).
  { induction fs as [|[rnd f] fs IH]; intros g g' tr Hg; cbn [run].
    - intros H. apply Ok_inj in H. congruence.
    - destruct (applied f g) as [a| |]; cbn [bind]; try discriminate.
      destruct (recv 4 rnd f g) as [g1| |] eqn:E; cbn [bind]; try discriminate.
      destruct (run 4 fs g1) as [[g2 tr2]| |] eqn:E2; cbn [bind];
        try discriminate.
      intros H. apply Ok_inj in H. cbn [fst snd] in H.
      assert (g2 = g') by congruence. subst g2.
      apply (IH g1 g' tr2); [|exact E2].
      apply (sess_frame 4 rnd f (mkSession g 0)); [exact Hg|].
      unfold on_frame. cbn [game high_score]. rewrite E. reflexivity. }
  assert (Hr : session_reachable (mkSession loop4 0)).
  { apply (Hs loop_frames loop_start loop4
             [(20, 0); (20, 0); (20, 0); (0, 20); (-20, 0)]); [|exact loop4_run].
    apply (sess_new 4 rnd_loop 0%Q 0%Q 0%Q). reflexivity. }
  split; [exact Hr|].
  eexists. split; [reflexivity|].
  exact (proj2 (proj2 (session_high_score (mkSession loop4 0) Hr))
           1%nat rnd_100 5%Q _ eq_refl).
Defined.

(** ** Drawing *)

Lemma aligned_cells_apart (a b v : Z) :
  a mod grid_size = 0 -> b mod grid_size = 0 ->
  a <= v <= a + grid_size - 2 -> b <= v <= b + grid_size - 2 -> a = b.
Proof.
  unfold grid_size. intros Ha Hb Hva Hvb.
  apply Z.mod_divide in Ha; [|lia]. apply Z.mod_divide in Hb; [|lia].
  destruct Ha as [i ->], Hb as [j ->]. lia.
Qed.

(** X15: in every reachable state each rectangle that [draw] paints for a
    segment lies inside the 640 x 480 board, and the rectangles of two
    segments share a pixel only if the segments are the same cell. *)
Theorem snake_rects_on_board (g : SnakeGame) :
  reachable g ->
  (forall (r : pos * pos) (px : pos),
     In r (snake_rects g) -> in_rect r px ->
     0 <= fst px < width /\ 0 <= snd px < height) /\
  (forall a b px : pos,
     In a (snake g) -> In b (snake g) ->
     in_rect (segment_rect a) px -> in_rect (segment_rect b) px -> a = b).
Proof.
  intros Hr. apply reachable_invariant in Hr.
  pose proof (inv_grid g Hr) as Hg. rewrite Forall_forall in Hg.
  split.
  - intros r px Hin Hpx. unfold snake_rects in Hin.
    apply in_map_iff in Hin. destruct Hin as (seg & <- & Hseg).
    destruct (Hg seg Hseg) as (Hx & Hy & Hxm & Hym).
    unfold in_rect, segment_rect in Hpx; cbn [fst snd] in Hpx.
    unfold width, height, grid_size in *.
    apply Z.mod_divide in Hxm; [|lia]. apply Z.mod_divide in Hym; [|lia].
    destruct Hxm as [i Hi], Hym as [j Hj]. lia.
  - intros a b px Ha Hb Hpa Hpb.
    destruct (Hg a Ha) as (_ & _ & Hax & Hay).
    destruct (Hg b Hb) as (_ & _ & Hbx & Hby).
    unfold in_rect, segment_rect in Hpa, Hpb; cbn [fst snd] in Hpa, Hpb.
    destruct a as [ax ay], b as [bx by']; cbn [fst snd] in *.
    f_equal.
    + apply (aligned_cells_apart ax bx (fst px)); tauto.
    + apply (aligned_cells_apart ay by' (snd px)); tauto.
Qed.

Lemma snake_rects_on_board_witness :
  reachable loop4 /\
  In ((360, 260), (378, 278)) (snake_rects loop4) /\
  0 <= 378 < width /\ 0 <= 278 < height.
Proof.
  split; [exact loop4_reachable|].
  assert (Hin : In ((360, 260), (378, 278)) (snake_rects loop4))
    by (left; reflexivity).
  split; [exact Hin|].
  apply (proj1 (snake_rects_on_board loop4 loop4_reachable)
           ((360, 260), (378, 278)) (378, 278) Hin).
  unfold in_rect; cbn [fst snd]. lia.
Defined.



(** ** The tick that eats the last free cell *)

Lemma spiral_start_init : init 1 (rnd_at (340, 240)) 0 0 0 = Ok spiral_start.
Proof. reflexivity. Qed.

Lemma spiral_walk_length :
  length spiral_moves = 767%nat /\ length spiral_frames = 766%nat.
Proof. split; vm_compute; reflexivity. Qed.

Lemma spiral_hands_in_frame : hands_in_frame spiral_frames = true.
Proof. vm_compute. reflexivity. Qed.

(** The 766 frames are played without a collision, one move each. *)
Lemma last_cell_run :
  run 1 spiral_frames spiral_start = Ok (last_cell_game, removelast spiral_moves).
Proof. vm_compute. reflexivity. Qed.

Lemma last_cell_reachable : reachable last_cell_game.
Proof.
  apply (run_reachable 1 spiral_frames spiral_start last_cell_game
           (removelast spiral_moves)); [|exact last_cell_run].
  exact (reach_init 1 (rnd_at (340, 240)) 0%Q 0%Q 0%Q spiral_start
           spiral_start_init).
Qed.

Lemma last_cell_shape :
  snake last_cell_game = (0, 440) :: tl (snake last_cell_game) /\
  length (snake last_cell_game) = 767%nat /\
  direction last_cell_game = (0, 20) /\
  food last_cell_game = (0, 460) /\
  score last_cell_game = 7660 /\
  game_over last_cell_game = false /\
  last_update last_cell_game = 766%Q.
Proof. repeat split; vm_compute; reflexivity. Qed.

Lemma last_cell_full (p : pos) :
  in_grid p -> mem p ((0, 460) :: snake last_cell_game) = true.
Proof.
  intros Hp.
  assert (Hall : forallb (fun q : pos => mem q ((0, 460) :: snake last_cell_game))
                   full_board = true) by (vm_compute; reflexivity).
  rewrite forallb_forall in Hall. apply Hall, full_board_covers, Hp.
Qed.

(** From that state every tick that is due hangs in [generate_food]. *)
Lemma last_cell_spins (fuel : nat) (rnd : nat -> Z) (now : Q) :
  due now last_cell_game = true ->
  update fuel rnd now last_cell_game = Spin.
Proof.
  intros Hdue. rewrite update_acts by exact Hdue.
  destruct last_cell_shape as (Hs & _).
  apply (advance_eat_spins rnd now last_cell_game (0, 440)
           (tl (snake last_cell_game)) Hs).
  - vm_compute. reflexivity.
  - vm_compute. reflexivity.
  - intros k.
    change (new_head_of last_cell_game (0, 440)) with ((0, 460) : pos).
    apply last_cell_full, draw_in_grid.
Qed.

(** C4 fails as stated: [last_cell_game] is reachable and running, the clock
    reading 767 is a full second after its last acted tick, and the call of
    [update] at that reading performs no transition: it returns nothing,
    whatever the random source and however long it runs. *)
Lemma update_rate_limited_counterexample :
  reachable last_cell_game /\
  game_over last_cell_game = false /\
  (game_speed <= 767 - last_update last_cell_game)%Q /\
  forall (fuel : nat) (rnd : nat -> Z),
    update fuel rnd 767 last_cell_game = Spin.
Proof.
  split; [exact last_cell_reachable|]. split; [vm_compute; reflexivity|].
  split; [vm_compute; discriminate|].
  intros fuel rnd. apply last_cell_spins. vm_compute. reflexivity.
Qed.

(** C5 fails as stated: in the reachable running state [last_cell_game] the
    due tick moves the head from (0, 440) onto the food at (0, 460) without a
    collision, and there is no state after the tick: the new snake fills the
    board and [generate_food] never returns. *)
Lemma eating_grows_counterexample :
  reachable last_cell_game /\
  due 767 last_cell_game = true /\
  hd (0, 0) (snake last_cell_game) = (0, 440) /\
  new_head_of last_cell_game (0, 440) = food last_cell_game /\
  collides (new_head_of last_cell_game (0, 440)) (tl (snake last_cell_game)) = false /\
  length (new_head_of last_cell_game (0, 440) :: snake last_cell_game) = 768%nat /\
  forall (fuel : nat) (rnd : nat -> Z),
    update fuel rnd 767 last_cell_game = Spin.
Proof.
  split; [exact last_cell_reachable|].
  do 5 (split; [vm_compute; reflexivity|]).
  intros fuel rnd. apply last_cell_spins. vm_compute. reflexivity.
Qed.
